(** * dgraph-orm: object mapper, predicate collections, predicate decorator
      and schema text, embedded from the TypeScript sources.

    Part I holds the embedding (data model and operations), Part II the
    lemmas and theorems about it.

    JavaScript objects and arrays are compared by identity in the code
    (WeakMap keys, Set members, in-place mutation), so every object and
    array is a natural number (its identity) and the stores that hold
    their contents are explicit. *)

From stdpp Require Import base numbers option list strings gmap sets.

Set Warnings "-clear-no-such-hyp".

Open Scope string_scope.
Open Scope list_scope.
Open Scope nat_scope.

(* ===================================================================== *)
(** * Part I. The embedding                                               *)
(* ===================================================================== *)

(** ** JavaScript values that occur in the graph-query results *)

(** Identity of a JavaScript object (a class instance, a facet instance). *)
Abbreviation obj := nat (only parsing).
(** Identity of a raw record of the query result. *)
Abbreviation rid := nat (only parsing).
(** Identity of an array (raw array or instance array). *)
Abbreviation aid := nat (only parsing).

(** Primitive values other than null/undefined. *)
Inductive prim :=
| PStr (s : string)
| PNum (n : Z)
| PBool (b : bool).

(** JavaScript truthiness of a primitive. *)
Definition prim_truthy (p : prim) : bool :=
  match p with
  | PStr s => negb (String.eqb s "")
  | PNum n => negb (Z.eqb n 0)
  | PBool b => b
  end.

(** [x.constructor.name] of a primitive. *)
Definition prim_constructor_name (p : prim) : string :=
  match p with
  | PStr _ => "String"
  | PNum _ => "Number"
  | PBool _ => "Boolean"
  end.

(** The value of a field of a raw record. *)
Inductive value :=
| VUndefined      (* only in objects the mapper builds, never in the input *)
| VNull
| VPrim (p : prim)
| VArr (a : aid).

(** An element of a raw array: a nested record or a primitive. *)
Inductive elem :=
| ERec (r : rid)
| EPrim (p : prim).

(** An element of an instance array, as class-transformer's plainToClass
    returns it: a class instance for a record, the primitive itself for a
    primitive. *)
Inductive ielem :=
| IInst (i : obj)
| IPrim (p : prim).

Global Instance prim_eq_dec : EqDecision prim.
Proof. solve_decision. Defined.
Global Instance value_eq_dec : EqDecision value.
Proof. solve_decision. Defined.
Global Instance elem_eq_dec : EqDecision elem.
Proof. solve_decision. Defined.
Global Instance ielem_eq_dec : EqDecision ielem.
Proof. solve_decision. Defined.

(** A raw record: the [uid] field (a string when present, see the input
    record shape) and the other own fields in key order.  The [uid] key is
    never array-valued, so the key loop of [expand] passes over it.  The
    stores are read with a default: an identity that is not in a store
    reads as the empty record or the empty array. *)
Record rawObj := RawObj {
  uid : option string;
  fields : list (string * value)
}.

Global Instance rawObj_inhabited : Inhabited rawObj :=
  populate (RawObj None []).

(** [o[key]] on an own-field list: the first binding of the key. *)
Fixpoint field_get {A} (key : string) (fs : list (string * A)) : option A :=
  match fs with
  | [] => None
  | (k, v) :: rest => if decide (k = key) then Some v else field_get key rest
  end.

(** [o[key] = v]: overwrite in place, or append a new key. *)
Fixpoint field_set {A} (key : string) (v : A) (fs : list (string * A))
  : list (string * A) :=
  match fs with
  | [] => [(key, v)]
  | (k, w) :: rest =>
      if decide (k = key) then (k, v) :: rest
      else (k, w) :: field_set key v rest
  end.

(** [delete o[key]]. *)
Fixpoint field_delete {A} (key : string) (fs : list (string * A))
  : list (string * A) :=
  match fs with
  | [] => []
  | (k, w) :: rest =>
      if decide (k = key) then field_delete key rest
      else (k, w) :: field_delete key rest
  end.

(** [Object.keys(o)] without the [uid] key. *)
Definition field_keys {A} (fs : list (string * A)) : list string := fs.*1.

(** [Set.prototype.add]: insertion-ordered, no duplicates. *)
Definition js_set_add (x : obj) (s : list obj) : list obj :=
  if decide (x ∈ s) then s else s ++ [x].

(** ** Facet Store *)

Module FacetStorage.
(** Modelled from the spec: the module [FacetStorage] (imported from
    './facet-storage' and '../facet') is not among the sources.  Spec 4.2:
    an identity-keyed association table (scope key, owner, child) to
    facet instance; [attach] overwrites any existing binding for the
    triple, [get] returns the facet or absent, [detach] removes the
    binding if present and does nothing otherwise. *)
Abbreviation t := (gmap (string * obj * obj) obj) (only parsing).

Definition attach (scope : string) (owner child facet : obj) (s : t) : t :=
  <[(scope, owner, child) := facet]> s.

Definition get (scope : string) (owner child : obj) (s : t) : option obj :=
  s !! (scope, owner, child).

Definition detach (scope : string) (owner child : obj) (s : t) : t :=
  delete (scope, owner, child) s.
End FacetStorage.

(** The stores a predicate collection works on: the contents of the
    instance arrays (a collection holds its backing array by reference) and
    the facet store. *)
Record world := World {
  iarrays : gmap aid (list ielem);
  facetStorage : FacetStorage.t
}.

Definition array_push (a : aid) (x : ielem) (w : world) : world :=
  World (<[a := (iarrays w !!! a) ++ [x]]> (iarrays w)) (facetStorage w).

Definition with_facetStorage (s : FacetStorage.t) (w : world) : world :=
  World (iarrays w) s.

(** ** Predicate Collection (class PredicateImpl) *)

Module PredicateImpl.
(** The fields of a [PredicateImpl<T, U>] object.  [T] are node instances
    and [U] facet instances, both objects (always truthy); [U | null] is
    an option.  The second version of the class keeps the added-set in a
    WeakMap entry keyed by the collection and set to a new Set by the
    constructor; [_diff] stands for that entry too. *)
Record t := Make {
  _facet : option obj;
  _diff : list obj;
  _namespace : string;
  _parent : obj;
  _data : aid
}.

(** How a method call ends: it returns [this], or it throws. *)
Inductive completion :=
| Returns (this : t) (w : world)
| Throws (msg : string) (this : t) (w : world).

(** [new PredicateImpl(namespace, parent, data)] *)
Definition new (namespace : string) (parent : obj) (data : aid) : t :=
  Make None [] namespace parent data.

Definition set_facet (f : option obj) (this : t) : t :=
  Make f (_diff this) (_namespace this) (_parent this) (_data this).

Definition set_diff (d : list obj) (this : t) : t :=
  Make (_facet this) d (_namespace this) (_parent this) (_data this).

Definition withFacet (this : t) (facet : option obj) : t :=
  set_facet facet this.

Definition getFacet (this : t) (node : obj) (w : world) : option obj :=
  FacetStorage.get (_namespace this) (_parent this) node (facetStorage w).

Definition add (this : t) (node : obj) (w : world) : t * world :=
  let '(this1, w1) :=
    match _facet this with
    | Some f =>
        (set_facet None this,
         with_facetStorage
           (FacetStorage.attach (_namespace this) (_parent this) node f
              (facetStorage w)) w)
    | None => (this, w)
    end in
  let w2 := array_push (_data this1) (IInst node) w1 in
  (set_diff (js_set_add node (_diff this1)) this1, w2).

Definition update (this : t) (node : obj) (w : world) : t * world :=
  match _facet this with
  | None =>
      (this,
       with_facetStorage
         (FacetStorage.detach (_namespace this) (_parent this) node
            (facetStorage w)) w)
  | Some f =>
      (this,
       with_facetStorage
         (FacetStorage.attach (_namespace this) (_parent this) node f
            (facetStorage w)) w)
  end.

Definition get (this : t) (w : world) : list ielem :=
  iarrays w !!! _data this.

Definition getDiff (this : t) : list obj := _diff this.

(** [console.log] writes to the console only. *)
Definition detach (this : t) (node : obj) (w : world) : completion :=
  Throws "Not implemented" this w.

Definition delete (this : t) (node : obj) (w : world) : completion :=
  Throws "Not implemented" this w.
End PredicateImpl.

(** ** Diff Tracker *)

Module DiffTracker.
(** Modelled from the spec: the module [DiffTracker]
    ('../mutation/tracker') is not among the sources.  Spec 4.3: per
    instance, the set of dirty property names; [trackProperty] installs
    change observation on a property (an assignment made after that marks
    the property dirty); [purgeInstance] clears all dirty marks of the
    instance; [diffOf] returns the dirty property names.  The installed
    observation is the [Tracked] accessor of the mapper state below. *)
Abbreviation t := (gmap obj (gset string)) (only parsing).

Definition markDirty (instance : obj) (propertyName : string) (d : t) : t :=
  <[instance := {[propertyName]} ∪ default ∅ (d !! instance)]> d.

Definition purgeInstance (instance : obj) (d : t) : t :=
  delete instance d.

Definition diffOf (instance : obj) (d : t) : gset string :=
  default ∅ (d !! instance).
End DiffTracker.

(** ** Metadata registry, as the object mapper reads it *)

Record PropertyMetadata := PropertyArgs {
  prop_propertyName : string;
  prop_name : string
}.

Record PredicateMetadata := PredicateArgs {
  pred_propertyName : string;
  pred_name : string;             (* name of the field in the raw record *)
  pred_type : string;             (* name of the class [args.type()] returns *)
  pred_facet : option string      (* name of the facet class, if any *)
}.

Record FacetMetadata := FacetArgs {
  facet_propertyName : string
}.

(** [MetadataStorage.Instance]: three maps keyed by class name. *)
Record MetadataStorage := Metadata {
  properties : gmap string (list PropertyMetadata);
  predicates : gmap string (list PredicateMetadata);
  facets : gmap string (list FacetMetadata)
}.

(** ** Object Mapper: the expand phase *)

(** [Object.assign(target, source)]: every own field of [source] is
    written to [target], in key order. *)
Definition object_assign (target source : rawObj) : rawObj :=
  RawObj (match uid source with Some u => Some u | None => uid target end)
         (foldl (λ acc kv, field_set kv.1 kv.2 acc) (fields target) (fields source)).

(** A uid inside a template string: an absent uid prints as undefined. *)
Definition uid_text (u : option string) : string := default "undefined" u.

(** The template string [`${source.uid}:${key}:${node.uid}`]. *)
Definition visitingKey (parent : option string) (key : string)
    (child : option string) : string :=
  uid_text parent +:+ ":" +:+ key +:+ ":" +:+ uid_text child.

(** State of the expand phase: the raw records (mutated in place), the
    visited set, and a log of the edges descended into (the log is not in
    the code; it records each call of [expand] made from the inner loop). *)
Record estate := EState {
  records : gmap rid rawObj;
  visited : gset string;
  descents : list (option string * string * option string)
}.

Definition set_records (f : gmap rid rawObj → gmap rid rawObj) (st : estate) : estate :=
  EState (f (records st)) (visited st) (descents st).

(** [forEach] with a body that can run out of fuel. *)
Fixpoint forEachO {A S} (body : S → A → option S) (l : list A) (s : S) : option S :=
  match l with
  | [] => Some s
  | x :: l' =>
      match body s x with
      | Some s' => forEachO body l' s'
      | None => None
      end
  end.

Module Expand.
Section expand.
(** The resource index [uid -> record] and the contents of the raw
    arrays; [expand] changes neither. *)
Variable resource : gmap string rid.
Variable arrays : gmap aid (list elem).

(** [node.uid] of an array element; a primitive has none. *)
Definition elem_uid (recs : gmap rid rawObj) (node : elem) : option string :=
  match node with
  | ERec r => uid (recs !!! r)
  | EPrim _ => None
  end.

(** [if (resource.has(source.uid)) Object.assign(source, resource.get(source.uid))] *)
Definition merge (r : rid) (st : estate) : estate :=
  match uid (records st !!! r) with
  | Some u =>
      match resource !! u with
      | Some r' =>
          set_records
            (<[r := object_assign (records st !!! r) (records st !!! r')]>) st
      | None => st
      end
  | None => st
  end.

(** [visited.add(visitingKey)], with the log entry of the descent. *)
Definition mark (parent : option string) (key : string)
    (child : option string) (st : estate) : estate :=
  EState (records st) ({[visitingKey parent key child]} ∪ visited st)
         (descents st ++ [(parent, key, child)]).

Section body.
(** The recursive call. *)
Variable expand_rec : elem → estate → option estate.

(** Body of [source[key].forEach(node => ...)]. *)
Definition visit_node (r : rid) (key : string) (st : estate) (node : elem)
  : option estate :=
  let parent := uid (records st !!! r) in
  let child := elem_uid (records st) node in
  if decide (visitingKey parent key child ∈ visited st) then Some st
  else expand_rec node (mark parent key child st).

(** Body of [Object.keys(source).forEach(key => ...)]. *)
Definition visit_key (r : rid) (st : estate) (key : string) : option estate :=
  if decide (key = "dgraph.type") then Some st
  else
    match field_get key (fields (records st !!! r)) with
    | Some (VArr a) => forEachO (visit_node r key) (arrays !!! a) st
    | _ => Some st
    end.

(** One call of [expand].  A primitive [source] has no uid and no
    array-valued key. *)
Definition expand_body (source : elem) (st : estate) : option estate :=
  match source with
  | EPrim _ => Some st
  | ERec r =>
      let st1 := merge r st in
      forEachO (visit_key r) (field_keys (fields (records st1 !!! r))) st1
  end.
End body.

Fixpoint expand (fuel : nat) : elem → estate → option estate :=
  match fuel with
  | 0 => λ _ _, None
  | S fuel' => expand_body (expand fuel')
  end.

(** [this._jsonData.map(jd => Private.expand(visited, this._resource, jd))] *)
Definition expand_roots (fuel : nat) (roots : list elem) (st : estate)
  : option estate :=
  forEachO (λ s jd, expand fuel jd s) roots st.
End expand.
End Expand.

(** ** Object Mapper: the transform phase *)

(** A class instance: its class ([constructor.name]) and its own data
    fields. *)
Record instance := Instance {
  i_class : string;
  i_fields : list (string * value)
}.

Global Instance instance_inhabited : Inhabited instance :=
  populate (Instance "Object" []).

(** What [Object.defineProperty] has installed on a property of an
    instance: the observation of the diff tracker, or the predicate
    accessor pair with its [storedValue]. *)
Inductive accessor :=
| Tracked (externalName : option string)
| PredicateAccessor (metadata : PredicateMetadata)
    (storedValue : option PredicateImpl.t).

(** What is assigned to a predicate property. *)
Inductive assigned :=
| AssignArray (a : aid)
| AssignCollection (c : PredicateImpl.t)
| AssignNullish.

(** State of the transform phase.  [next] is the next unused object
    identity; [storage] is the [instanceStorage] WeakMap from raw array to
    instance array.  [produced] and [assignments] are logs that are not in
    the code: the instance array built for each raw array by the executor,
    and each assignment [ins[propertyName] = plainToClassExecutor(...)]
    with the raw array it was made for. *)
Record mstate := MState {
  next : nat;
  storage : gmap aid aid;
  instances : gmap obj instance;
  accessors : gmap (obj * string) accessor;
  heap : world;
  diff : DiffTracker.t;
  produced : list (aid * aid);
  assignments : list (obj * string * aid * aid)
}.

Definition set_next (n : nat) (st : mstate) : mstate :=
  MState n (storage st) (instances st) (accessors st) (heap st) (diff st)
         (produced st) (assignments st).
Definition set_instances (m : gmap obj instance) (st : mstate) : mstate :=
  MState (next st) (storage st) m (accessors st) (heap st) (diff st)
         (produced st) (assignments st).
Definition set_accessors (m : gmap (obj * string) accessor) (st : mstate) : mstate :=
  MState (next st) (storage st) (instances st) m (heap st) (diff st)
         (produced st) (assignments st).
Definition set_heap (w : world) (st : mstate) : mstate :=
  MState (next st) (storage st) (instances st) (accessors st) w (diff st)
         (produced st) (assignments st).
Definition set_diff (d : DiffTracker.t) (st : mstate) : mstate :=
  MState (next st) (storage st) (instances st) (accessors st) (heap st) d
         (produced st) (assignments st).

(** How a piece of the transform ends. *)
Inductive outcome (A : Type) :=
| Done (a : A) (st : mstate)
| Threw (msg : string)
| OutOfFuel.
Arguments Done {A} a st.
Arguments Threw {A} msg.
Arguments OutOfFuel {A}.

Definition bind {A B} (m : outcome A) (k : A → mstate → outcome B) : outcome B :=
  match m with
  | Done a st => k a st
  | Threw msg => Threw msg
  | OutOfFuel => OutOfFuel
  end.

Notation "'do' x , st <- m ; k" := (bind m (λ x st, k))
  (at level 10, x name, st name, m at level 100, k at level 200).

(** [Array.prototype.forEach] with a body that can throw. *)
Fixpoint forEach {A} (body : A → mstate → outcome unit) (l : list A)
    (st : mstate) : outcome unit :=
  match l with
  | [] => Done tt st
  | x :: l' => do _, st' <- body x st; forEach body l' st'
  end.

(** [x.constructor.name] *)
Definition constructor_name (st : mstate) (x : ielem) : string :=
  match x with
  | IInst i => i_class (instances st !!! i)
  | IPrim p => prim_constructor_name p
  end.

(** [plain[name]] of an element of a raw array.  A primitive has no such
    own field. *)
Definition raw_field (recs : gmap rid rawObj) (e : elem) (name : string) : value :=
  match e with
  | ERec r =>
      if decide (name = "uid") then
        match uid (recs !!! r) with
        | Some u => VPrim (PStr u)
        | None => VUndefined
        end
      else default VUndefined (field_get name (fields (recs !!! r)))
  | EPrim _ => VUndefined
  end.

(** JavaScript truthiness of a field value (an array is truthy). *)
Definition truthy (v : value) : bool :=
  match v with
  | VUndefined | VNull => false
  | VPrim p => prim_truthy p
  | VArr _ => true
  end.

Module Private.
Section transform.
Variable metadata : MetadataStorage.
(** The raw data after the expand phase; the transform does not change it. *)
Variable recs : gmap rid rawObj.
Variable arrays : gmap aid (list elem).

(** class-transformer's [plainToClass(cls, plain)] for an array is an
    external library call.  What the mapper relies on is kept: a new
    array with one new instance of [cls] per record, carrying the own
    fields of the record, and a primitive left as it is.  (The nested
    arrays the library converts on its own are overwritten by the
    executor for every predicate and are not kept here.) *)
Definition own_fields (o : rawObj) : list (string * value) :=
  match uid o with
  | Some u => ("uid", VPrim (PStr u)) :: fields o
  | None => fields o
  end.

Fixpoint plainToClass_elems (cls : string) (plain : list elem) (st : mstate)
  : list ielem * mstate :=
  match plain with
  | [] => ([], st)
  | ERec r :: rest =>
      let i := next st in
      let st1 :=
        set_next (S i)
          (set_instances
             (<[i := Instance cls (own_fields (recs !!! r))]> (instances st)) st) in
      let '(xs, st2) := plainToClass_elems cls rest st1 in
      (IInst i :: xs, st2)
  | EPrim p :: rest =>
      let '(xs, st1) := plainToClass_elems cls rest st in
      (IPrim p :: xs, st1)
  end.

(** A new array object holding [xs]. *)
Definition new_array (xs : list ielem) (st : mstate) : aid * mstate :=
  let a := next st in
  (a, set_next (S a)
        (set_heap (World (<[a := xs]> (iarrays (heap st)))
                         (facetStorage (heap st))) st)).

Definition plainToClass_array (cls : string) (plain : aid) (st : mstate)
  : aid * mstate :=
  let '(xs, st1) := plainToClass_elems cls (arrays !!! plain) st in
  new_array xs st1.

(** [plainToClass(facet, plain)] for one plain object: a new instance of
    the facet class (a bare object when there is no facet class). *)
Definition plainToClass_object (cls : option string)
    (plain : list (string * value)) (st : mstate) : obj * mstate :=
  let i := next st in
  (i, set_next (S i)
        (set_instances
           (<[i := Instance (default "Object" cls) plain]> (instances st)) st)).

(** Modelled from the spec: [DiffTracker.trackProperty] installs the
    change observation on the property; on a primitive
    [Object.defineProperty] is a TypeError. *)
Definition trackProperty (x : ielem) (propertyName : string)
    (name : option string) (st : mstate) : outcome unit :=
  match x with
  | IInst i =>
      Done tt (set_accessors (<[(i, propertyName) := Tracked name]> (accessors st)) st)
  | IPrim _ => Threw "TypeError: Object.defineProperty called on non-object"
  end.

(** [DiffTracker.purgeInstance]; a primitive has no diff state. *)
Definition purgeInstance (x : ielem) (st : mstate) : mstate :=
  match x with
  | IInst i => set_diff (DiffTracker.purgeInstance i (diff st)) st
  | IPrim _ => st
  end.

(** [trackProperties(instance)] *)
Definition trackProperties (x : ielem) (st : mstate) : outcome unit :=
  match properties metadata !! constructor_name st x with
  | None => Done tt st
  | Some props =>
      forEach (λ prop, trackProperty x (prop_propertyName prop)
                         (Some (prop_name prop))) props st
  end.

(** [trackPredicate(instance, metadata)]: the accessor pair is defined
    on the property, with an undefined [storedValue]. *)
Definition trackPredicate (x : ielem) (pred : PredicateMetadata) (st : mstate)
  : outcome unit :=
  match x with
  | IInst i =>
      Done tt (set_accessors
                 (<[(i, pred_propertyName pred) := PredicateAccessor pred None]>
                    (accessors st)) st)
  | IPrim _ => Threw "TypeError: Object.defineProperty called on non-object"
  end.

(** The [reduce] over the facet descriptors: the facet fields of the
    element move into a plain object and are deleted from the element. *)
Definition move_facet_fields (name : string) (fms : list FacetMetadata)
    (v_fields : list (string * value))
  : list (string * value) * list (string * value) :=
  foldl (λ '(acc, vf) f,
           let facetPropertyName := name +:+ "|" +:+ facet_propertyName f in
           (field_set (facet_propertyName f)
              (default VUndefined (field_get facetPropertyName vf)) acc,
            field_delete facetPropertyName vf))
        ([], v_fields) fms.

(** Body of [value.get().forEach(v => ...)] in the setter.  The facet
    store is keyed by instances (spec 3 and 4.2), so a primitive element
    cannot be bound: a TypeError. *)
Definition setup_facet (owner : obj) (pred : PredicateMetadata)
    (fms : list FacetMetadata) (v : ielem) (st : mstate) : outcome unit :=
  match v with
  | IPrim _ => Threw "TypeError: Invalid value used as weak map key"
  | IInst j =>
      let '(plain, v_fields) :=
        move_facet_fields (pred_name pred) fms (i_fields (instances st !!! j)) in
      let st1 :=
        set_instances
          (<[j := Instance (i_class (instances st !!! j)) v_fields]> (instances st))
          st in
      let '(facetInstance, st2) := plainToClass_object (pred_facet pred) plain st1 in
      let st3 :=
        set_heap
          (with_facetStorage
             (FacetStorage.attach (pred_propertyName pred) owner j facetInstance
                (facetStorage (heap st2))) (heap st2)) st2 in
      do _, st4 <- forEach (λ f, trackProperty (IInst facetInstance)
                                   (facet_propertyName f) None) fms st3;
      Done tt (purgeInstance v (purgeInstance (IInst facetInstance) st4))
  end.

(** The setter of the predicate accessor pair. *)
Definition predicate_set (owner : obj) (pred : PredicateMetadata)
    (value : assigned) (st : mstate) : outcome unit :=
  let '(c, st1) :=
    match value with
    | AssignCollection c => (c, st)
    | AssignArray a => (PredicateImpl.new (pred_propertyName pred) owner a, st)
    | AssignNullish =>
        let '(a, st') := new_array [] st in
        (PredicateImpl.new (pred_propertyName pred) owner a, st')
    end in
  let fms :=
    default [] (facets metadata !! default "" (pred_facet pred)) in
  do _, st2 <- forEach (setup_facet owner pred fms)
                 (PredicateImpl.get c (heap st1)) st1;
  Done tt (set_accessors
             (<[(owner, pred_propertyName pred) := PredicateAccessor pred (Some c)]>
                (accessors st2)) st2).

(** The getter of the predicate accessor pair. *)
Definition predicate_get (owner : obj) (pred : PredicateMetadata)
    (storedValue : option PredicateImpl.t) (st : mstate)
  : PredicateImpl.t * mstate :=
  match storedValue with
  | Some c => (c, st)
  | None =>
      let '(a, st1) := new_array [] st in
      let c := PredicateImpl.new (pred_propertyName pred) owner a in
      (c, set_accessors
            (<[(owner, pred_propertyName pred) := PredicateAccessor pred (Some c)]>
               (accessors st1)) st1)
  end.

(** The assignment [ins[propertyName] = value]: it goes through whatever
    accessor the property has at that moment.  Through the observation of
    the diff tracker it marks the property dirty; a property without
    accessor is a plain data property. *)
Definition assign_property (x : ielem) (propertyName : string)
    (value : assigned) (st : mstate) : outcome unit :=
  match x with
  | IPrim _ => Threw "TypeError: Cannot create property on a primitive"
  | IInst i =>
      match accessors st !! (i, propertyName) with
      | Some (PredicateAccessor pred _) => predicate_set i pred value st
      | Some (Tracked _) =>
          Done tt (set_diff (DiffTracker.markDirty i propertyName (diff st)) st)
      | None => Done tt st
      end
  end.

Definition log_assignment (x : ielem) (propertyName : string) (plain ia : aid)
    (st : mstate) : mstate :=
  match x with
  | IInst i =>
      MState (next st) (storage st) (instances st) (accessors st) (heap st)
             (diff st) (produced st)
             (assignments st ++ [(i, propertyName, plain, ia)])
  | IPrim _ => st
  end.

(** [storage.set(plain, instances)], with the log entry. *)
Definition storage_set (plain ia : aid) (st : mstate) : mstate :=
  MState (next st) (<[plain := ia]> (storage st)) (instances st) (accessors st)
         (heap st) (diff st) (produced st ++ [(plain, ia)]) (assignments st).

Section body.
(** The recursive call. *)
Variable executor_rec : string → aid → mstate → outcome aid.

(** Body of [predicates.forEach(pred => ...)]. *)
Definition process_predicate (ins : ielem) (plain_idx : elem)
    (pred : PredicateMetadata) (st : mstate) : outcome unit :=
  do _, st1 <- trackPredicate ins pred st;
  let _preds := raw_field recs plain_idx (pred_name pred) in
  if truthy _preds then
    match _preds with
    | VArr a =>
        do ia, st2 <- executor_rec (pred_type pred) a st1;
        assign_property ins (pred_propertyName pred) (AssignArray ia)
          (log_assignment ins (pred_propertyName pred) a ia st2)
    | _ => Threw "TypeError: Invalid value used as weak map key"
    end
  else Done tt st1.

(** Body of [instances.forEach((ins, idx) => ...)]. *)
Definition process_instance (x : ielem * elem) (st : mstate) : outcome unit :=
  let '(ins, plain_idx) := x in
  do _, st1 <- trackProperties ins st;
  match predicates metadata !! constructor_name st1 ins with
  | None => Done tt st1
  | Some preds => forEach (process_predicate ins plain_idx) preds st1
  end.

(** One call of [plainToClassExecutor]. *)
Definition executor_body (cls : string) (plain : aid) (st : mstate)
  : outcome aid :=
  match storage st !! plain with
  | Some ia => Done ia st
  | None =>
      let '(ia, st1) := plainToClass_array cls plain st in
      let st2 := storage_set plain ia st1 in
      do _, st3 <- forEach process_instance
                     (zip (iarrays (heap st2) !!! ia) (arrays !!! plain)) st2;
      Done ia st3
  end.
End body.

Fixpoint plainToClassExecutor (fuel : nat) : string → aid → mstate → outcome aid :=
  match fuel with
  | 0 => λ _ _ _, OutOfFuel
  | S fuel' => executor_body (plainToClassExecutor fuel')
  end.

(** A state in which nothing is allocated yet. *)
Definition initial : mstate :=
  MState 0 ∅ ∅ ∅ (World ∅ ∅) ∅ [] [].

(** [transform]: the executor on a new, empty [instanceStorage] (the
    logs start empty with it). *)
Definition transform (fuel : nat) (entryCls : string) (plain : aid) (st : mstate)
  : outcome aid :=
  plainToClassExecutor fuel entryCls plain
    (MState (next st) ∅ (instances st) (accessors st) (heap st) (diff st) [] []).
End transform.
End Private.

Module ObjectMapper.
(** The builder after [addEntryType], [addJsonData] and
    [addResourceData]: the entry class, the array [_jsonData], the
    resource index, and the raw records and arrays they refer to. *)
Record ObjectMapperBuilder := Builder {
  _entryType : string;
  _jsonData : aid;
  _resource : gmap string rid;
  raw_records : gmap rid rawObj;
  raw_arrays : gmap aid (list elem)
}.

(** The raw records after the expand phase of [build] ([None]: out of
    fuel).  Without resource data the tree is not traversed. *)
Definition build_expand (fuel : nat) (b : ObjectMapperBuilder)
  : option (gmap rid rawObj) :=
  if decide (0 < size (_resource b)) then
    records <$>
      Expand.expand_roots (_resource b) (raw_arrays b) fuel
        (raw_arrays b !!! _jsonData b) (EState (raw_records b) ∅ [])
  else Some (raw_records b).

(** [build()]: expand, transform, then purge every returned instance. *)
Definition build (metadata : MetadataStorage) (fuel : nat)
    (b : ObjectMapperBuilder) : outcome aid :=
  match build_expand fuel b with
  | None => OutOfFuel
  | Some recs =>
      do ia, st <- Private.transform metadata recs (raw_arrays b) fuel
                     (_entryType b) (_jsonData b) Private.initial;
      Done ia (foldl (λ s i, Private.purgeInstance i s) st
                 (iarrays (heap st) !!! ia))
  end.
End ObjectMapper.

(** ** Predicate decorator (src/decorator/predicate.ts) *)

(** [String.prototype.toLowerCase] on ASCII letters. *)
Definition ascii_to_lower (c : Ascii.ascii) : Ascii.ascii :=
  let n := Ascii.nat_of_ascii c in
  if ((65 <=? n) && (n <=? 90))%nat then Ascii.ascii_of_nat (n + 32) else c.

Fixpoint toLowerCase (s : string) : string :=
  match s with
  | EmptyString => EmptyString
  | String c rest => String (ascii_to_lower c) (toLowerCase rest)
  end.

Module Predicate.
(** How the decorator ends: it registers the metadata, or it throws. *)
Inductive outcome (A : Type) :=
| Ok (a : A)
| Error (msg : string).
Arguments Ok {A} a.
Arguments Error {A} msg.

Section decorator.
(** The enum [PredicateType] ('../types/predicate_type') is not among
    the sources; its members are taken as a parameter.  They are the
    names of the scalar kinds, non-empty strings, so every member is
    truthy. *)
Variable PredicateType : Type.

(** [PredicateTypeUtils.convertReflectedToPredicateType] is not among
    the sources either: it maps the lower-cased name of the reflected
    design type to a predicate type, or to undefined. *)
Variable convertReflectedToPredicateType : string → option PredicateType.

(** One entry of [options.type]: a predicate type or a class. *)
Inductive type_ref :=
| OfPredicateType (t : PredicateType)
| OfConstructor (className : string).

(** [options.type]: a single entry or an array of entries. *)
Inductive type_option :=
| Single (t : type_ref)
| Many (ts : list type_ref).

Record IOptions := Options {
  type : option type_option;
  name : option string
}.

(** The decorated class ([target.constructor.name]) and what
    [Reflect.getMetadata('design:type', target, propertyName)] holds
    for the property: the name of the reflected constructor, or nothing
    when no metadata was emitted. *)
Record target := Target {
  constructor_name : string;
  design_type : string → option string
}.

Record sanitized := Sanitized {
  isNodePredicate : bool;
  isArray : bool;
  s_type : option type_ref
}.

(** [Private.getPropertyPredicateType]: reading [reflected.name] of an
    undefined [reflected] is a TypeError. *)
Definition getPropertyPredicateType (tg : target) (propertyName : string)
  : outcome (option type_ref) :=
  match design_type tg propertyName with
  | None => Error "TypeError: Cannot read property 'name' of undefined"
  | Some reflected_name =>
      Ok (OfPredicateType <$>
            convertReflectedToPredicateType (toLowerCase reflected_name))
  end.

Definition is_function (t : type_ref) : bool :=
  match t with OfConstructor _ => true | OfPredicateType _ => false end.

(** [Private.sanitizePredicateType] *)
Definition sanitizePredicateType (options : IOptions) (tg : target)
    (propertyName : string) : outcome sanitized :=
  let after_array : outcome (option type_ref * bool * bool) :=
    match type options with
    | Some (Many ts) =>
        match ts with
        | [t] => Ok (Some t, true, is_function t)
        | _ => Error "Type definition array should contain exactly 1 type"
        end
    | Some (Single t) => Ok (Some t, false, false)
    | None => Ok (None, false, false)
    end in
  match after_array with
  | Error msg => Error msg
  | Ok (ty, isArr, isNode) =>
      match ty with
      | Some t => Ok (Sanitized isNode isArr (Some t))
      | None =>
          match getPropertyPredicateType tg propertyName with
          | Error msg => Error msg
          | Ok ty' => Ok (Sanitized isNode isArr ty')
          end
      end
  end.

(** What [addPredicateMetadata] receives; [m_type = None] stands for
    the literal 'node'. *)
Record PredicateMetadataArgs := MetadataArgs {
  m_type : option PredicateType;
  m_name : string;
  m_isArray : bool;
  m_target : string;
  m_propertyName : string
}.

(** [Private.isPredicateType(type) ? type : 'node'] *)
Definition metadata_type (t : type_ref) : option PredicateType :=
  match t with
  | OfPredicateType p => Some p
  | OfConstructor _ => None
  end.

(** The decorator [Predicate(options)(target, propertyName)].  The
    calls into class-transformer ([Expose], [Type], [Transform]) register
    transformation hooks and the last call appends the metadata to the
    registry; the result is the appended metadata. *)
Definition Predicate (options : IOptions) (tg : target)
    (propertyName : string) : outcome PredicateMetadataArgs :=
  match sanitizePredicateType options tg propertyName with
  | Error msg => Error msg
  | Ok s =>
      match s_type s with
      | None =>
          Error ("Cannot infer the type for predicate '" +:+ propertyName
                 +:+ "' on node '" +:+ constructor_name tg +:+ "'. "
                 +:+ "Please try to explicitly define a type in the predicate options")
      | Some t =>
          let name' :=
            match name options with
            | Some n =>
                if String.eqb n "" then constructor_name tg +:+ "." +:+ propertyName
                else n
            | None => constructor_name tg +:+ "." +:+ propertyName
            end in
          Ok (MetadataArgs (metadata_type t) name' (isArray s)
                (constructor_name tg) propertyName)
      end
  end.

(** The declaration raises an error. *)
Definition raises (options : IOptions) (tg : target) (propertyName : string)
  : Prop :=
  ∃ msg, Predicate options tg propertyName = Error msg.

(** The type is given as an array with other than exactly one entry. *)
Definition bad_cardinality (options : IOptions) : Prop :=
  ∃ ts, type options = Some (Many ts) ∧ length ts ≠ 1.

(** The type can be inferred from the reflected design type. *)
Definition inferable (tg : target) (propertyName : string) : Prop :=
  ∃ reflected_name t,
    design_type tg propertyName = Some reflected_name
    ∧ convertReflectedToPredicateType (toLowerCase reflected_name) = Some t.

(** The target type cannot be resolved: not given, not inferable. *)
Definition unresolvable (options : IOptions) (tg : target)
    (propertyName : string) : Prop :=
  type options = None ∧ ¬ inferable tg propertyName.
End decorator.

Arguments OfPredicateType {PredicateType} t.
Arguments OfConstructor {PredicateType} className.
Arguments Single {PredicateType} t.
Arguments Many {PredicateType} ts.
Arguments Options {PredicateType} type name.
Arguments MetadataArgs {PredicateType}.
End Predicate.

(** ** Schema Builder *)

Module SchemaBuilder.
(** Modelled from the spec: [SchemaBuilder.build] and the metadata
    registry it reads are not among the sources (only the test of the
    canonical example is).  Spec 3, 4.1 and 4.6: the registry keeps the
    type descriptors in first-registration order, each with its property
    descriptors in declaration order; [build] emits one block per type,
    one line per property under its global name, then one flat line per
    distinct global name in first-registration order.  A predicate whose
    target is a node type has no flat line; the expected text of the test
    has no line for it in the block of its type either, and the model
    emits none. *)
Record PropertyDescriptor := Property {
  propertyName : string;
  externalName : option string;   (* explicit override of the name *)
  kind : string;                  (* scalar kind, e.g. string *)
  isArray : bool;
  index : option string
}.

Record PredicateDescriptor := NodePredicate {
  predicateProperty : string;
  targetType : string
}.

Record TypeDescriptor := NodeType {
  typeName : string;
  uidField : option string;
  properties : list PropertyDescriptor;
  predicates : list PredicateDescriptor
}.

Definition newline : string := String (Ascii.ascii_of_nat 10) EmptyString.

Definition globalName (t : TypeDescriptor) (p : PropertyDescriptor) : string :=
  match externalName p with
  | Some n => n
  | None => typeName t +:+ "." +:+ propertyName p
  end.

Definition typeText (p : PropertyDescriptor) : string :=
  if isArray p then "[" +:+ kind p +:+ "]" else kind p.

Definition blockLine (t : TypeDescriptor) (p : PropertyDescriptor) : string :=
  "  " +:+ globalName t p +:+ ": " +:+ typeText p +:+ newline.

Definition typeBlock (t : TypeDescriptor) : string :=
  "type " +:+ typeName t +:+ " {" +:+ newline
  +:+ foldr String.append "" (blockLine t <$> properties t)
  +:+ "}" +:+ newline.

Definition flatLine (t : TypeDescriptor) (p : PropertyDescriptor) : string :=
  match index p with
  | Some k => "@index(" +:+ k +:+ ") "
  | None => ""
  end +:+ globalName t p +:+ ":" +:+ typeText p +:+ newline.

(** Global name and flat line of every property, in registration order. *)
Definition flatEntries (reg : list TypeDescriptor) : list (string * string) :=
  t ← reg; (λ p, (globalName t p, flatLine t p)) <$> properties t.

(** Keep the first entry of every name. *)
Fixpoint dedup (seen : list string) (es : list (string * string)) : list string :=
  match es with
  | [] => []
  | (n, line) :: rest =>
      if decide (n ∈ seen) then dedup seen rest
      else line :: dedup (n :: seen) rest
  end.

Definition build (reg : list TypeDescriptor) : string :=
  foldr String.append "" (typeBlock <$> reg)
  +:+ foldr String.append "" (dedup [] (flatEntries reg)).

(** The registry of the canonical example: Work {id, name} and
    Person {id, name, hobbies, works}. *)
Definition Work : TypeDescriptor :=
  NodeType "Work" (Some "id")
    [Property "name" None "string" false None] [].

Definition Person : TypeDescriptor :=
  NodeType "Person" (Some "id")
    [Property "name" (Some "name") "string" false (Some "hash");
     Property "hobbies" None "string" true None]
    [NodePredicate "works" "Work"].

Definition expectedSchema : string :=
"type Work {
  Work.name: string
}
type Person {
  name: string
  Person.hobbies: [string]
}
Work.name:string
@index(hash) name:string
Person.hobbies:[string]
".
End SchemaBuilder.

(** ** A worked input: two people who are friends of each other *)

Module Example.
(** The query result: the root is a partial record of a, whose inline
    friends array holds a partial record of b.  The resource data hold
    the full records of a and b; each lists the other as a friend (by a
    partial record), and b carries the facet field of the edge. *)
Definition raw_records : gmap rid rawObj :=
  <[1 := RawObj (Some "a") [("friends", VArr 10)]]>
  (<[2 := RawObj (Some "b") []]>
  (<[3 := RawObj (Some "b")
            [("name", VPrim (PStr "B")); ("friends", VArr 11);
             ("friends|since", VPrim (PNum 3))]]>
  (<[4 := RawObj (Some "a") []]>
  (<[5 := RawObj (Some "a") [("name", VPrim (PStr "A")); ("friends", VArr 12)]]>
  (<[6 := RawObj (Some "b") []]>
  (<[7 := RawObj None [("friends", VArr 13)]]> ∅)))))).

Definition raw_arrays : gmap aid (list elem) :=
  <[0 := [ERec 1]]>
  (<[10 := [ERec 2]]>
  (<[11 := [ERec 4]]>
  (<[12 := [ERec 6]]>
  (<[13 := [ERec 2; EPrim (PStr "x")]]> ∅)))).

Definition resource : gmap string rid := <["a" := 5]> (<["b" := 3]> ∅).

Definition metadata : MetadataStorage :=
  Metadata
    (<["Person" := [PropertyArgs "name" "name"]]> ∅)
    (<["Person" := [PredicateArgs "friends" "friends" "Person" (Some "Since")]]> ∅)
    (<["Since" := [FacetArgs "since"]]> ∅).

Definition builder : ObjectMapper.ObjectMapperBuilder :=
  ObjectMapper.Builder "Person" 0 resource raw_records raw_arrays.

Definition start : estate := EState raw_records ∅ [].

(** The state after [expand] on the root. *)
Definition expanded : estate :=
  Eval vm_compute in
    default start (Expand.expand resource raw_arrays 3 (ERec 1) start).

(** The state after [transform] of the expanded root array. *)
Definition transformed : mstate :=
  Eval vm_compute in
    match Private.transform metadata (records expanded) raw_arrays 4
            "Person" 0 Private.initial with
    | Done _ st => st
    | _ => Private.initial
    end.

(** The state after [build]. *)
Definition built : mstate :=
  Eval vm_compute in
    match ObjectMapper.build metadata 4 builder with
    | Done _ st => st
    | _ => Private.initial
    end.

(** A collection of instance 1 on the array 10, with the facet 7 staged. *)
Definition staged : PredicateImpl.t :=
  PredicateImpl.withFacet (PredicateImpl.new "friends" 1 10) (Some 7).

(** The state after [expand] on the record without uid. *)
Definition expanded_no_uid : estate :=
  Eval vm_compute in
    default start (Expand.expand resource raw_arrays 5 (ERec 7) start).
End Example.

(** ** Invariants of the expand phase *)

(** The visiting key of a logged edge. *)
Definition edge_key (e : option string * string * option string) : string :=
  visitingKey e.1.1 e.1.2 e.2.

(** Every visiting key that can be built from the uids [us] and the field
    names [ks]. *)
Definition key_universe (us : list (option string)) (ks : list string) : gset string :=
  list_to_set (p ← us; k ← ks; c ← us; [visitingKey p k c]).

(** The uids and field names of all records stay within [us] and [ks]. *)
Definition bounded (us : list (option string)) (ks : list string)
    (recs : gmap rid rawObj) : Prop :=
  ∀ r, uid (recs !!! r) ∈ us
       ∧ ∀ k, k ∈ field_keys (fields (recs !!! r)) → k ∈ ks.

(** The uids and the field names that occur in a record store. *)
Definition uids_of (recs : gmap rid rawObj) : list (option string) :=
  None :: (uid <$> (map_to_list recs).*2).

Definition keys_of (recs : gmap rid rawObj) : list string :=
  o ← (map_to_list recs).*2; field_keys (fields o).

(** Loop invariant of the termination argument. *)
Definition progress_inv (us : list (option string)) (ks : list string)
    (V0 : gset string) (s : estate) : Prop :=
  bounded us ks (records s) ∧ V0 ⊆ visited s.

(** What the descents made since the state [st0] look like: their keys
    are pairwise distinct, were not visited at [st0], and are exactly what
    the visited set gained. *)
Definition log_inv (st0 s : estate) : Prop :=
  ∃ new,
    descents s = descents st0 ++ new
    ∧ NoDup (edge_key <$> new)
    ∧ visited s = visited st0 ∪ list_to_set (edge_key <$> new)
    ∧ ∀ e, e ∈ new → edge_key e ∉ visited st0.

(** The uid of the record misses the resource index (or there is no uid). *)
Definition misses (resource : gmap string rid) (o : rawObj) : Prop :=
  match uid o with
  | Some u => resource !! u = None
  | None => True
  end.

(** ** Invariants of the transform phase *)

(** What a piece of the transform may do to the state: allocate, leave
    the accessors of the objects below [n] alone, and add to the storage
    without overwriting. *)
Definition step (n : nat) (st st' : mstate) : Prop :=
  next st ≤ next st'
  ∧ (∀ j p, j < n → accessors st' !! (j, p) = accessors st !! (j, p))
  ∧ storage st ⊆ storage st'.

(** No instance has a dirty property and no installed collection has an
    added element. *)
Definition clean (st : mstate) : Prop :=
  (∀ i, DiffTracker.diffOf i (diff st) = ∅)
  ∧ ∀ i p m c,
      accessors st !! (i, p) = Some (PredicateAccessor m (Some c)) →
      PredicateImpl.getDiff c = [].

(** The logs agree with the storage: every assignment carried the
    instance array the storage holds for its raw array, and the instance
    arrays built are exactly the entries of the storage, one per raw
    array. *)
Definition stored (st : mstate) : Prop :=
  (∀ i p a ia, (i, p, a, ia) ∈ assignments st → storage st !! a = Some ia)
  ∧ NoDup (produced st).*1
  ∧ ∀ a ia, (a, ia) ∈ produced st ↔ storage st !! a = Some ia.

(** What the proofs ask of the recursive call. *)
Definition executor_spec (rec : string → aid → mstate → outcome aid) : Prop :=
  ∀ cls a st ia st',
    rec cls a st = Done ia st' →
    step (next st) st st'
    ∧ storage st' !! a = Some ia
    ∧ (clean st → clean st')
    ∧ (stored st → stored st').

(** The raw arrays the executor can be called on: the root array and
    every array held by a field of a record. *)
Definition field_arrays (o : rawObj) : list aid :=
  omap (λ kv, match kv.2 with VArr a => Some a | _ => None end) (fields o).

Definition arrays_of (recs : gmap rid rawObj) (root : aid) : gset aid :=
  {[root]} ∪ list_to_set (o ← (map_to_list recs).*2; field_arrays o).

Definition array_closed (A : gset aid) (recs : gmap rid rawObj) : Prop :=
  ∀ r k a, (k, VArr a) ∈ fields (recs !!! r) → a ∈ A.

(** The fuel [f] exceeds the number of arrays of [A] not yet in the storage. *)
Definition enough_fuel (A : gset aid) (f : nat) (st : mstate) : Prop :=
  size (A ∖ dom (storage st)) < f.

(** ** Object Mapper: the builder's resource data *)

(** The argument of [addResourceData]: a record (by identity), an array
    of such arguments, a primitive or null. *)
Set Warnings "-register-all".

Inductive json :=
| JRec (r : rid)
| JArr (ds : list json)
| JPrim (p : prim)
| JNull.

Module Builder.
Section builder.
(** The raw records the data refer to; [addResourceData] only reads their
    uid. *)
Variable recs : gmap rid rawObj.

(** [data.uid] is truthy: a non-empty string. *)
Definition uid_truthy (r : rid) : option string :=
  match uid (recs !!! r) with
  | Some u => if String.eqb u "" then None else Some u
  | None => None
  end.

(** [addResourceData(data)] on the resource index [res]: the index
    afterwards and the error thrown, if any.  The index is changed in
    place, so what was set before a throw stays set.  A record without
    truthy uid, a primitive or null has no [forEach]: a TypeError. *)
Fixpoint addResourceData (data : json) (res : gmap string rid)
  : gmap string rid * option string :=
  match data with
  | JRec r =>
      match uid_truthy r with
      | Some u => (<[u := r]> res, None)
      | None => (res, Some "TypeError: data.forEach is not a function")
      end
  | JArr ds =>
      (fix forEach_data (ds : list json) (res : gmap string rid) :=
         match ds with
         | [] => (res, None)
         | d :: ds' =>
             match addResourceData d res with
             | (res', None) => forEach_data ds' res'
             | (res', Some e) => (res', Some e)
             end
         end) ds res
  | JPrim _ => (res, Some "TypeError: data.forEach is not a function")
  | JNull => (res, Some "TypeError: Cannot read property 'forEach' of null")
  end.

(** The [forEach] of [addResourceData] over the elements of an array. *)
Fixpoint addResourceData_each (ds : list json) (res : gmap string rid)
  : gmap string rid * option string :=
  match ds with
  | [] => (res, None)
  | d :: ds' =>
      match addResourceData d res with
      | (res', None) => addResourceData_each ds' res'
      | (res', Some e) => (res', Some e)
      end
  end.

(** The values that are not arrays, in the order the walk meets them. *)
Fixpoint leaves (data : json) : list json :=
  match data with
  | JArr ds => (fix go (ds : list json) := match ds with
                                            | [] => []
                                            | d :: ds' => leaves d ++ go ds'
                                            end) ds
  | _ => [data]
  end.

(** The index entry a leaf gives, if it is a record with a truthy uid. *)
Definition entry_of (d : json) : option (string * rid) :=
  match d with
  | JRec r => (λ u, (u, r)) <$> uid_truthy r
  | _ => None
  end.

(** The entries of the longest prefix of leaves that all give one. *)
Fixpoint entries_until_error (ds : list json) : list (string * rid) :=
  match ds with
  | [] => []
  | d :: ds' =>
      match entry_of d with
      | Some e => e :: entries_until_error ds'
      | None => []
      end
  end.

(** Every entry of the index maps a uid to a record that carries it. *)
Definition consistent (res : gmap string rid) : Prop :=
  ∀ u r, res !! u = Some r → uid (recs !!! r) = Some u.
End builder.

(** [addJsonData(data)]: an array is kept (by reference), a single record
    is wrapped in a new array. *)
Definition addJsonData (data : json) : list json :=
  match data with
  | JArr ds => ds
  | _ => [data]
  end.
End Builder.

(** Resource data of the worked input: the two full records, the second
    in a nested array. *)
Definition example_resource_data : json := JArr [JRec 5; JArr [JRec 3]].

(** ** Collections: a run of [add] calls *)

(** [c.add(x1).add(x2)...] *)
Definition add_all (c : PredicateImpl.t) (xs : list obj) (w : world)
  : PredicateImpl.t * world :=
  foldl (λ cw x, PredicateImpl.add cw.1 x cw.2) (c, w) xs.

(** ** Predicate decorator: an instance of the missing enum *)

(** Three scalar kinds standing for the members of [PredicateType], and a
    conversion of reflected type names, to run the decorator on. *)
Inductive ExamplePredicateType :=
| PTString
| PTInt
| PTBool.

Definition example_convert (reflected : string) : option ExamplePredicateType :=
  if String.eqb reflected "string" then Some PTString
  else if String.eqb reflected "number" then Some PTInt
  else if String.eqb reflected "boolean" then Some PTBool
  else None.

(** A class Person whose property name is reflected as String and whose
    property works is reflected as Array. *)
Definition example_target : Predicate.target :=
  Predicate.Target "Person"
    (λ p, if String.eqb p "name" then Some "String"
          else if String.eqb p "works" then Some "Array" else None).

(** ** The setter on a small state *)

(** The predicate friends of the worked input and its facet descriptors. *)
Definition example_pred : PredicateMetadata :=
  PredicateArgs "friends" "friends" "Person" (Some "Since").

Definition example_facets : list FacetMetadata := [FacetArgs "since"].

(** Two people: instance 0, and instance 1 who carries the facet field of
    the edge; the array 2 holds instance 1. *)
Definition example_before_set : mstate :=
  MState 3 ∅
    (<[0 := Instance "Person" [("name", VPrim (PStr "A"))]]>
     (<[1 := Instance "Person"
               [("name", VPrim (PStr "B")); ("friends|since", VPrim (PNum 3))]]> ∅))
    ∅ (World (<[2 := [IInst 1]]> ∅) ∅) ∅ [] [].

(** The state after the facet of instance 1 is set up for owner 0. *)
Definition example_after_setup : mstate :=
  Eval vm_compute in
    match Private.setup_facet 0 example_pred example_facets (IInst 1)
            example_before_set with
    | Done _ st => st
    | _ => example_before_set
    end.

(** The state after the array 2 is assigned to the property friends of
    instance 0. *)
Definition example_after_set : mstate :=
  Eval vm_compute in
    match Private.predicate_set Example.metadata 0 example_pred (AssignArray 2)
            example_before_set with
    | Done _ st => st
    | _ => example_before_set
    end.

(** ** The shape of the storage *)

(** An element of an instance array answers an element of the raw array:
    an instance for a record, the primitive itself for a primitive. *)
Definition shape (x : ielem) (e : elem) : Prop :=
  match x, e with
  | IInst _, ERec _ => True
  | IPrim p, EPrim q => p = q
  | _, _ => False
  end.

(** The instances among the elements of an instance array. *)
Definition inst_ids (xs : list ielem) : list obj :=
  omap (λ x, match x with IInst i => Some i | IPrim _ => None end) xs.

(** Every entry of the storage leads to an allocated instance array that
    answers its raw array element by element, with pairwise distinct
    instances allocated before the array; no two raw arrays have the same
    instance array or an instance in common. *)
Definition well_stored (arrays : gmap aid (list elem)) (st : mstate) : Prop :=
  (∀ a ia,
     storage st !! a = Some ia →
     ia < next st
     ∧ ∃ xs, iarrays (heap st) !! ia = Some xs
             ∧ Forall2 shape xs (arrays !!! a)
             ∧ NoDup (inst_ids xs)
             ∧ ∀ i, i ∈ inst_ids xs → i < ia)
  ∧ (∀ a1 a2 ia,
       storage st !! a1 = Some ia → storage st !! a2 = Some ia → a1 = a2)
  ∧ (∀ a1 a2 ia1 ia2 xs1 xs2 i,
       storage st !! a1 = Some ia1 → storage st !! a2 = Some ia2 →
       iarrays (heap st) !! ia1 = Some xs1 → iarrays (heap st) !! ia2 = Some xs2 →
       i ∈ inst_ids xs1 → i ∈ inst_ids xs2 → a1 = a2).

(** What every piece of the transform keeps of the objects allocated
    before it: the class of an instance and the elements of an array. *)
Definition grows (st st' : mstate) : Prop :=
  next st ≤ next st'
  ∧ (∀ i, i < next st →
          i_class (instances st' !!! i) = i_class (instances st !!! i))
  ∧ (∀ a, a < next st → iarrays (heap st') !! a = iarrays (heap st) !! a).

(** A piece of the transform that neither touches the storage nor any
    array. *)
Definition quiet (st st' : mstate) : Prop :=
  storage st' = storage st
  ∧ next st ≤ next st'
  ∧ iarrays (heap st') = iarrays (heap st).

(* ===================================================================== *)
(** * Part II. Lemmas and theorems                                        *)
(* ===================================================================== *)

(** ** Predicate collections *)

Section collection.
Import PredicateImpl.
Implicit Types (c : PredicateImpl.t) (w : world) (x f : obj).

Lemma js_set_add_elem x s : x ∈ js_set_add x s.
Proof. unfold js_set_add. case_decide; set_solver. Qed.

Lemma add_namespace c x w : _namespace (add c x w).1 = _namespace c.
Proof. unfold add. by destruct (_facet c). Qed.

Lemma add_parent c x w : _parent (add c x w).1 = _parent c.
Proof. unfold add. by destruct (_facet c). Qed.

Lemma add_data c x w : _data (add c x w).1 = _data c.
Proof. unfold add. by destruct (_facet c). Qed.

Lemma add_clears_stage c x w : _facet (add c x w).1 = None.
Proof. unfold add. by destruct (_facet c) eqn:E. Qed.

Lemma add_get c x w : get (add c x w).1 (add c x w).2 = get c w ++ [IInst x].
Proof.
  unfold add, get. destruct (_facet c); simpl; by rewrite lookup_total_insert_eq.
Qed.

Lemma add_diff c x w : x ∈ getDiff (add c x w).1.
Proof. unfold add, getDiff. destruct (_facet c); simpl; apply js_set_add_elem. Qed.
End collection.

Section collection_claims.
Import PredicateImpl.
Implicit Types (c : PredicateImpl.t) (w : world) (x f : obj).

(** C3 (facet lifecycle).  After [c.withFacet(f).add(x)] with a facet
    instance [f], [c.getFacet(x)] returns [f] and the stage is empty
    again; [c.update(x)] called then, or at any later state of the
    collection in which no facet is staged, leaves no binding for
    (scope key, owner, x): [c.getFacet(x)] returns absent. *)
Theorem facet_lifecycle c x f w :
  let c1 := (add (withFacet c (Some f)) x w).1 in
  let w1 := (add (withFacet c (Some f)) x w).2 in
  getFacet c1 x w1 = Some f
  ∧ _facet c1 = None
  ∧ getFacet (update c1 x w1).1 x (update c1 x w1).2 = None
  ∧ ∀ c2 w2,
      _namespace c2 = _namespace c → _parent c2 = _parent c →
      _facet c2 = None →
      getFacet (update c2 x w2).1 x (update c2 x w2).2 = None
      ∧ FacetStorage.get (_namespace c) (_parent c) x
          (facetStorage (update c2 x w2).2) = None.
Proof.
  cbn zeta. split_and!.
  - unfold getFacet, add, withFacet, FacetStorage.get, FacetStorage.attach.
    simpl. apply lookup_insert_eq.
  - apply add_clears_stage.
  - unfold update. rewrite add_clears_stage. simpl.
    unfold getFacet, FacetStorage.get, FacetStorage.detach. simpl.
    apply lookup_delete_eq.
  - intros c2 w2 Hns Hp Hst. unfold update. rewrite Hst. simpl.
    unfold getFacet, FacetStorage.get, FacetStorage.detach. simpl.
    rewrite <- Hns, <- Hp. split; apply lookup_delete_eq.
Qed.

(** C6 (update against add).  With [stage] the staged facet of the
    collection: [update(x)] with nothing staged removes the binding of
    [x] and touches nothing else; [update(x)] with [f] staged binds [f]
    to [x] and leaves [f] staged, so a second [update(y)] binds [f] to
    [y] as well; [add(x)] with [f] staged binds [f] to [x] and clears the
    stage.  Neither [update] changes the backing array or the added-set. *)
Theorem update_keeps_stage_add_clears_it c x w (stage : option obj) :
  _facet c = stage →
  match stage with
  | None =>
      (update c x w).1 = c
      ∧ facetStorage (update c x w).2
        = FacetStorage.detach (_namespace c) (_parent c) x (facetStorage w)
      ∧ getFacet c x (update c x w).2 = None
  | Some f =>
      (update c x w).1 = c
      ∧ _facet (update c x w).1 = Some f
      ∧ getFacet c x (update c x w).2 = Some f
      ∧ (∀ y, getFacet c y
                (update (update c x w).1 y (update c x w).2).2 = Some f)
      ∧ _facet (add c x w).1 = None
      ∧ getFacet c x (add c x w).2 = Some f
  end
  ∧ iarrays (update c x w).2 = iarrays w
  ∧ getDiff (update c x w).1 = getDiff c.
Proof.
  intros Hst. unfold update, add, getFacet, FacetStorage.get,
    FacetStorage.detach, FacetStorage.attach.
  rewrite Hst. destruct stage as [f|]; simpl.
  - rewrite Hst. simpl. split_and!; try done.
    + apply lookup_insert_eq.
    + intros y. apply lookup_insert_eq.
    + apply lookup_insert_eq.
  - split_and!; try done. apply lookup_delete_eq.
Qed.

(** C7 (detach and delete).  Both calls throw 'Not implemented'; at the
    throw the collection object, the backing array, the added-set and
    the facet store are what they were before the call. *)
Theorem detach_delete_not_implemented c x w :
  detach c x w = Throws "Not implemented" c w
  ∧ delete c x w = Throws "Not implemented" c w
  ∧ ∀ c' w',
      (detach c x w = Throws "Not implemented" c' w'
       ∨ delete c x w = Throws "Not implemented" c' w') →
      get c' w' = get c w
      ∧ getDiff c' = getDiff c
      ∧ facetStorage w' = facetStorage w.
Proof.
  split_and!; try done.
  intros c' w' [H|H]; inversion H; subst; done.
Qed.

(** C10 (null stage).  A collection whose staged facet is null -- after
    [withFacet(null)], or after [add] consumed the stage -- has nothing
    staged: [add(x)] leaves the facet store as it was, appends [x] to the
    backing array and records [x] in the added-set; [update(x)] removes
    the binding of [x] and binds nothing. *)
Theorem null_stage_is_no_stage c x w :
  _facet (withFacet c None) = None
  ∧ (∀ y w0, _facet (add c y w0).1 = None)
  ∧ ∀ c0, _facet c0 = None →
      facetStorage (add c0 x w).2 = facetStorage w
      ∧ get (add c0 x w).1 (add c0 x w).2 = get c0 w ++ [IInst x]
      ∧ x ∈ getDiff (add c0 x w).1
      ∧ facetStorage (update c0 x w).2
        = FacetStorage.detach (_namespace c0) (_parent c0) x (facetStorage w)
      ∧ getFacet (update c0 x w).1 x (update c0 x w).2 = None.
Proof.
  split_and!; try done.
  - intros y w0. apply add_clears_stage.
  - intros c0 Hst. split_and!.
    + unfold add. by rewrite Hst.
    + apply add_get.
    + apply add_diff.
    + unfold update. by rewrite Hst.
    + unfold update, getFacet, FacetStorage.get, FacetStorage.detach.
      rewrite Hst. simpl. apply lookup_delete_eq.
Qed.
End collection_claims.

(** With the facet 7 staged, [update(2)] binds 7 to 2 and keeps it staged. *)
Lemma update_keeps_stage_add_clears_it_witness :
  PredicateImpl._facet Example.staged = Some 7
  ∧ PredicateImpl._facet (PredicateImpl.update Example.staged 2 (World ∅ ∅)).1 = Some 7
  ∧ PredicateImpl.getFacet Example.staged 2
      (PredicateImpl.update Example.staged 2 (World ∅ ∅)).2 = Some 7
  ∧ PredicateImpl._facet (PredicateImpl.add Example.staged 2 (World ∅ ∅)).1 = None.
Proof.
  split; [reflexivity|].
  destruct (update_keeps_stage_add_clears_it Example.staged 2 (World ∅ ∅) (Some 7)
              eq_refl) as [(_ & H2 & H3 & _ & H5 & _) _].
  split; [exact H2|]. split; [exact H3|exact H5].
Defined.

(** ** Own fields and [Object.assign] *)

Section fields.
Context {A : Type}.
Implicit Types (fs : list (string * A)) (k : string) (v : A).

Lemma field_get_set_eq k v fs : field_get k (field_set k v fs) = Some v.
Proof.
  induction fs as [|[k' w] fs IH]; simpl.
  - by rewrite decide_True.
  - destruct (decide (k' = k)) as [->|Hne]; simpl.
    + by rewrite decide_True.
    + by rewrite decide_False.
Qed.

Lemma field_get_set_ne k k' v fs :
  k ≠ k' → field_get k' (field_set k v fs) = field_get k' fs.
Proof.
  intros Hne. induction fs as [|[k0 w] fs IH]; simpl.
  - by rewrite decide_False.
  - destruct (decide (k0 = k)) as [->|Hne0]; simpl.
    + by rewrite !decide_False.
    + destruct (decide (k0 = k')); [done|]. apply IH.
Qed.

Lemma field_get_None k fs : k ∉ field_keys fs → field_get k fs = None.
Proof.
  unfold field_keys. induction fs as [|[k0 w] fs IH]; simpl; [done|].
  intros Hn. rewrite not_elem_of_cons in Hn. destruct Hn as [Hne Hn].
  rewrite decide_False; [by apply IH | congruence].
Qed.

Lemma field_get_Some_key k v fs : field_get k fs = Some v → k ∈ field_keys fs.
Proof.
  unfold field_keys. induction fs as [|[k0 w] fs IH]; simpl; [done|].
  destruct (decide (k0 = k)) as [->|Hne]; intros H.
  - apply elem_of_cons. by left.
  - apply elem_of_cons. right. by apply IH.
Qed.

Lemma field_get_elem k v fs : field_get k fs = Some v → (k, v) ∈ fs.
Proof.
  induction fs as [|[k0 w] fs IH]; simpl; [done|].
  destruct (decide (k0 = k)) as [->|Hne]; intros H.
  - simplify_eq. apply elem_of_cons. by left.
  - apply elem_of_cons. right. by apply IH.
Qed.

Lemma field_set_elem k v fs x : x ∈ field_set k v fs → x = (k, v) ∨ x ∈ fs.
Proof.
  induction fs as [|[k0 w] fs IH]; simpl.
  - rewrite list_elem_of_singleton. by left.
  - destruct (decide (k0 = k)) as [->|Hne]; rewrite !elem_of_cons.
    + intros [->|H]; [by left|by right; right].
    + intros [->|H]; [by right; left|]. destruct (IH H); [by left|by right; right].
Qed.

Lemma field_assign_elem (tgt src : list (string * A)) x :
  x ∈ foldl (λ acc kv, field_set kv.1 kv.2 acc) tgt src → x ∈ tgt ∨ x ∈ src.
Proof.
  revert tgt. induction src as [|[k0 v0] src IH]; intros tgt; simpl; [by left|].
  intros H. destruct (IH _ H) as [H1|H1].
  - destruct (field_set_elem _ _ _ _ H1) as [->|H2]; [|by left].
    right. apply elem_of_cons. by left.
  - right. apply elem_of_cons. by right.
Qed.

Lemma field_keys_set k v fs k' :
  k' ∈ field_keys (field_set k v fs) → k' = k ∨ k' ∈ field_keys fs.
Proof.
  unfold field_keys. induction fs as [|[k0 w] fs IH]; simpl.
  - rewrite list_elem_of_singleton. by left.
  - destruct (decide (k0 = k)) as [->|Hne]; simpl.
    + rewrite !elem_of_cons. tauto.
    + rewrite !elem_of_cons. intros [->|H]; [by right; left|].
      destruct (IH H); [by left | by right; right].
Qed.

Lemma field_keys_assign (tgt src : list (string * A)) k :
  k ∈ field_keys (foldl (λ acc kv, field_set kv.1 kv.2 acc) tgt src) →
  k ∈ field_keys tgt ∨ k ∈ field_keys src.
Proof.
  revert tgt. induction src as [|[k0 v0] src IH]; intros tgt; simpl.
  - by left.
  - intros H. destruct (IH _ H) as [H1|H1].
    + destruct (field_keys_set _ _ _ _ H1) as [->|H2].
      * right. unfold field_keys. simpl. apply elem_of_cons. by left.
      * by left.
    + right. unfold field_keys in *. simpl. apply elem_of_cons. by right.
Qed.

(** After the assignment of every field of [src], a key of [src] holds
    the value of [src] and every other key holds what it held. *)
Lemma field_get_assign (tgt src : list (string * A)) k :
  NoDup (field_keys src) →
  field_get k (foldl (λ acc kv, field_set kv.1 kv.2 acc) tgt src)
  = match field_get k src with
    | Some v => Some v
    | None => field_get k tgt
    end.
Proof.
  revert tgt. induction src as [|[k0 v0] src IH]; intros tgt Hnd; simpl; [done|].
  unfold field_keys in Hnd. simpl in Hnd. apply NoDup_cons in Hnd as [Hnot Hnd].
  rewrite IH by done.
  destruct (decide (k0 = k)) as [->|Hne].
  - rewrite (field_get_None k src) by done. apply field_get_set_eq.
  - destruct (field_get k src); [done|]. by apply field_get_set_ne.
Qed.
End fields.

(** ** Instances built by plainToClass *)

Lemma plainToClass_elems_instances recs cls plain :
  ∀ st xs st1,
    Private.plainToClass_elems recs cls plain st = (xs, st1) →
    next st ≤ next st1
    ∧ ∀ j, j < next st → instances st1 !! j = instances st !! j.
Proof.
  induction plain as [|[r|p] plain IH]; intros st xs st1; simpl.
  - by intros [= <- <-].
  - destruct (Private.plainToClass_elems recs cls plain _) as [ys st2] eqn:E.
    intros [= <- <-]. destruct (IH _ _ _ E) as [Hn Hi]. simpl in *.
    split; [lia|]. intros j Hj. rewrite Hi by lia.
    apply lookup_insert_ne. lia.
  - destruct (Private.plainToClass_elems recs cls plain _) as [ys st2] eqn:E.
    intros [= <- <-]. by eapply IH.
Qed.

(** The instance built for a record carries the own fields of the record. *)
Lemma plainToClass_elems_head recs cls r rest st :
  ∃ xs st1,
    Private.plainToClass_elems recs cls (ERec r :: rest) st
    = (IInst (next st) :: xs, st1)
    ∧ instances st1 !! next st
      = Some (Instance cls (Private.own_fields (recs !!! r))).
Proof.
  simpl.
  destruct (Private.plainToClass_elems recs cls rest _) as [ys st2] eqn:E.
  exists ys, st2. split; [done|].
  eapply plainToClass_elems_instances in E as [_ Hi].
  rewrite Hi by (simpl; lia). simpl. apply lookup_insert_eq.
Qed.

(** ** The expand phase *)

Section expand_facts.
Import Expand.
Variable resource : gmap string rid.
Variable arrays : gmap aid (list elem).

Lemma forEachO_preserves {A S} (I : S → Prop) (body : S → A → option S) l :
  (∀ s x s', x ∈ l → I s → body s x = Some s' → I s') →
  ∀ s s', I s → forEachO body l s = Some s' → I s'.
Proof.
  induction l as [|x l IH]; intros Hbody s s' Hs; simpl.
  - by intros [= <-].
  - destruct (body s x) as [s1|] eqn:E; [|done]. intros Hl.
    eapply IH; [| |exact Hl].
    + intros s0 y s0' Hy. apply Hbody. apply elem_of_cons. by right.
    + eapply Hbody; [|exact Hs|exact E]. apply elem_of_cons. by left.
Qed.

Lemma forEachO_total {A S} (I : S → Prop) (body : S → A → option S) l :
  (∀ s x, x ∈ l → I s → ∃ s', body s x = Some s' ∧ I s') →
  ∀ s, I s → ∃ s', forEachO body l s = Some s' ∧ I s'.
Proof.
  induction l as [|x l IH]; intros Hbody s Hs; simpl.
  - by eauto.
  - destruct (Hbody s x) as (s1 & -> & Hs1); [apply elem_of_cons; by left|done|].
    apply IH; [|done]. intros s0 y Hy. apply Hbody. apply elem_of_cons. by right.
Qed.

(** Whatever is kept by [merge] and by [mark] on a key that is not yet
    visited is kept by [expand], and by each of its loops. *)
Section preserved.
Variable I : estate → Prop.
Hypothesis Hmerge : ∀ r st, I st → I (merge resource r st).
Hypothesis Hmark :
  ∀ p k c st, I st → visitingKey p k c ∉ visited st → I (mark p k c st).

Lemma visit_node_preserves rec r key :
  (∀ node st st', I st → rec node st = Some st' → I st') →
  ∀ s node s', I s → visit_node rec r key s node = Some s' → I s'.
Proof.
  intros Hrec s node s' Hs. unfold visit_node.
  case_decide as Hv; [by intros [= <-]|].
  apply Hrec. by apply Hmark.
Qed.

Lemma visit_key_preserves rec r :
  (∀ node st st', I st → rec node st = Some st' → I st') →
  ∀ s key s', I s → visit_key arrays rec r s key = Some s' → I s'.
Proof.
  intros Hrec s key s' Hs. unfold visit_key.
  case_decide; [by intros [= <-]|].
  destruct (field_get key (fields (records s !!! r))) as [[| | |a]|];
    try by intros [= <-].
  revert Hs. apply forEachO_preserves.
  intros s0 node s0' _. by apply visit_node_preserves.
Qed.

Lemma expand_preserves fuel :
  ∀ source st st',
    I st → expand resource arrays fuel source st = Some st' → I st'.
Proof.
  induction fuel as [|fuel IH]; intros source st st' Hst; [done|].
  simpl. destruct source as [r|p]; simpl; [|by intros [= <-]].
  apply forEachO_preserves; [|by apply Hmerge].
  intros s key s' _. by apply visit_key_preserves.
Qed.

Lemma expand_roots_preserves fuel roots st st' :
  I st → expand_roots resource arrays fuel roots st = Some st' → I st'.
Proof.
  unfold expand_roots. apply forEachO_preserves.
  intros s x s' _. by apply expand_preserves.
Qed.
End preserved.

Lemma bounded_merge us ks r st :
  bounded us ks (records st) → bounded us ks (records (merge resource r st)).
Proof.
  intros Hb. unfold merge.
  destruct (uid (records st !!! r)) as [u|] eqn:Eu; [|done].
  destruct (resource !! u) as [r'|]; [|done]. simpl.
  intros r0. destruct (decide (r = r0)) as [<-|Hne].
  - rewrite lookup_total_insert_eq. unfold object_assign. simpl. split.
    + destruct (uid (records st !!! r')) eqn:Eu'.
      * rewrite <- Eu'. apply Hb.
      * apply Hb.
    + intros k Hk. apply field_keys_assign in Hk as [Hk|Hk]; by eapply Hb.
  - rewrite lookup_total_insert_ne by done. apply Hb.
Qed.

Lemma bounded_initial recs : bounded (uids_of recs) (keys_of recs) recs.
Proof.
  intros r. rewrite lookup_total_alt. unfold uids_of, keys_of.
  destruct (recs !! r) as [o|] eqn:E; simpl.
  - assert (Ho : o ∈ (map_to_list recs).*2).
    { apply list_elem_of_fmap. exists (r, o). split; [done|].
      by apply elem_of_map_to_list. }
    split.
    + apply elem_of_cons. right. by apply list_elem_of_fmap_2.
    + intros k Hk. apply list_elem_of_bind. by exists o.
  - split; [apply elem_of_cons; by left|]. intros k Hk.
    unfold field_keys in Hk. simpl in Hk. by apply elem_of_nil in Hk.
Qed.

Lemma key_in_universe us ks p k c :
  p ∈ us → k ∈ ks → c ∈ us → visitingKey p k c ∈ key_universe us ks.
Proof.
  intros Hp Hk Hc. unfold key_universe. apply elem_of_list_to_set.
  apply list_elem_of_bind. exists p. split; [|done].
  apply list_elem_of_bind. exists k. split; [|done].
  apply list_elem_of_bind. exists c. split; [|done].
  by apply list_elem_of_singleton.
Qed.

Lemma elem_uid_bounded us ks recs node :
  bounded us ks recs → elem_uid recs node ∈ us.
Proof.
  intros Hb. destruct node as [r|p]; simpl; [apply Hb|].
  (* a record that is not in the store has no uid *)
  pose proof (is_fresh (dom recs)) as Hr. apply not_elem_of_dom in Hr.
  destruct (Hb (fresh (dom recs))) as [Hu _].
  by rewrite lookup_total_alt, Hr in Hu.
Qed.

Lemma merge_visited r st : visited (merge resource r st) = visited st.
Proof.
  unfold merge. destruct (uid (records st !!! r)) as [u|]; [|done].
  by destruct (resource !! u).
Qed.

Lemma merge_descents r st : descents (merge resource r st) = descents st.
Proof.
  unfold merge. destruct (uid (records st !!! r)) as [u|]; [|done].
  by destruct (resource !! u).
Qed.

Lemma merge_misses r st :
  misses resource (records st !!! r) → merge resource r st = st.
Proof.
  unfold misses, merge. destruct (uid (records st !!! r)) as [u|]; [|done].
  by intros ->.
Qed.

Lemma progress_merge us ks V0 r st :
  progress_inv us ks V0 st → progress_inv us ks V0 (merge resource r st).
Proof.
  intros [Hb Hv]. split; [by apply bounded_merge|]. by rewrite merge_visited.
Qed.

Lemma progress_mark us ks V0 p k c st :
  progress_inv us ks V0 st → progress_inv us ks V0 (mark p k c st).
Proof. intros [Hb Hv]. split; [done|]. simpl. set_solver. Qed.

(** [expand] returns whenever the fuel exceeds the number of visiting
    keys that are not yet visited. *)
Lemma expand_total us ks fuel :
  ∀ source st,
    bounded us ks (records st) →
    size (key_universe us ks ∖ visited st) < fuel →
    is_Some (expand resource arrays fuel source st).
Proof.
  induction fuel as [|fuel IH]; intros source st Hb Hsz; [lia|].
  simpl. destruct source as [r|p]; simpl; [|by eauto].
  pose proof (bounded_merge us ks r st Hb) as Hb1.
  edestruct (forEachO_total (progress_inv us ks (visited st))
               (visit_key arrays (expand resource arrays fuel) r)
               (field_keys (fields (records (merge resource r st) !!! r))))
    as (s' & Hs' & _); [| |by eauto].
  2:{ split; [done|]. by rewrite merge_visited. }
  intros s key Hkey [Hbs Hvs]. unfold visit_key.
  case_decide; [by eexists; split; [|split]|].
  assert (Hks : key ∈ ks) by (by eapply Hb1).
  destruct (field_get key (fields (records s !!! r))) as [[| | |a]|];
    try by eexists; split; [|split].
  apply (forEachO_total (progress_inv us ks (visited st))); [|done].
  intros s0 node _ [Hb0 Hv0]. unfold visit_node.
  case_decide as Hvis; [by eexists; split; [|split]|].
  set (vk := visitingKey (uid (records s0 !!! r)) key (elem_uid (records s0) node)) in *.
  destruct (IH node (mark (uid (records s0 !!! r)) key (elem_uid (records s0) node) s0))
    as [s1 Hs1]; [done| |].
  - assert (Hin : vk ∈ key_universe us ks).
    { apply key_in_universe; [apply Hb0|done|by eapply elem_uid_bounded]. }
    assert (key_universe us ks ∖ visited (mark (uid (records s0 !!! r)) key
              (elem_uid (records s0) node) s0)
            ⊂ key_universe us ks ∖ visited st) as Hsub.
    { simpl. fold vk. set_solver. }
    apply subset_size in Hsub. lia.
  - exists s1. split; [done|].
    eapply (expand_preserves (progress_inv us ks (visited st))); [..|exact Hs1].
    + intros. by apply progress_merge.
    + intros. by apply progress_mark.
    + apply progress_mark. by split.
Qed.

Lemma log_inv_refl st : log_inv st st.
Proof.
  exists []. rewrite app_nil_r. simpl. split_and!; [done|constructor|set_solver|].
  intros e He. by apply elem_of_nil in He.
Qed.

Lemma log_inv_merge st0 r st : log_inv st0 st → log_inv st0 (merge resource r st).
Proof.
  intros (new & Hd & Hnd & Hv & Hn). exists new.
  by rewrite merge_descents, merge_visited.
Qed.

Lemma log_inv_mark st0 p k c st :
  log_inv st0 st → visitingKey p k c ∉ visited st → log_inv st0 (mark p k c st).
Proof.
  intros (new & Hd & Hnd & Hv & Hn) Hvk. exists (new ++ [(p, k, c)]). simpl.
  rewrite fmap_app. simpl. unfold edge_key at 2. simpl. split_and!.
  - by rewrite Hd, app_assoc.
  - apply NoDup_app. split_and!; [done| |apply NoDup_singleton].
    intros x Hx Hx'. apply list_elem_of_singleton in Hx' as ->.
    apply Hvk. rewrite Hv. set_solver.
  - rewrite Hv, list_to_set_app_L. set_solver.
  - intros e He. apply elem_of_app in He as [He|He]; [by apply Hn|].
    apply list_elem_of_singleton in He as ->. unfold edge_key. simpl.
    rewrite Hv in Hvk. set_solver.
Qed.

Lemma expand_log fuel source st st' :
  expand resource arrays fuel source st = Some st' → log_inv st st'.
Proof.
  apply (expand_preserves (log_inv st)).
  - intros. by apply log_inv_merge.
  - intros. by apply log_inv_mark.
  - apply log_inv_refl.
Qed.

Lemma expand_visited_mono fuel source st st' :
  expand resource arrays fuel source st = Some st' → visited st ⊆ visited st'.
Proof. intros (new & _ & _ & -> & _)%expand_log. set_solver. Qed.

Lemma forEachO_post {A S} (I : S → Prop) (Q : A → S → Prop)
    (body : S → A → option S) l :
  (∀ s x s', x ∈ l → I s → body s x = Some s' → I s' ∧ Q x s') →
  (∀ s x y s', y ∈ l → I s → Q x s → body s y = Some s' → Q x s') →
  ∀ s s', I s → forEachO body l s = Some s' → ∀ x, x ∈ l → Q x s'.
Proof.
  induction l as [|y l IH]; intros Hstep Hstable s s' Hs Hrun x Hx.
  - by apply elem_of_nil in Hx.
  - simpl in Hrun. destruct (body s y) as [s1|] eqn:E; [|done].
    destruct (Hstep s y s1) as [Hs1 Hq]; [apply elem_of_cons; by left|done..|].
    apply elem_of_cons in Hx as [->|Hx].
    + assert (I s' ∧ Q y s') as [_ ?]; [|done].
      revert Hrun. apply (forEachO_preserves (λ s, I s ∧ Q y s)); [|done].
      intros s0 z s0' Hz [Hi Hqy] Hb. split.
      * eapply Hstep; [|done..]. apply elem_of_cons. by right.
      * eapply Hstable; [|done..]. apply elem_of_cons. by right.
    + eapply IH; [| |exact Hs1|exact Hrun|exact Hx].
      * intros s0 z s0' Hz. apply Hstep. apply elem_of_cons. by right.
      * intros s0 z w s0' Hw. apply Hstable. apply elem_of_cons. by right.
Qed.

(** A record whose uid misses the index is never written to. *)
Lemma kept_merge r o r0 st :
  misses resource o → records st !!! r = o →
  records (merge resource r0 st) !!! r = o.
Proof.
  intros Hm Hr. destruct (decide (r0 = r)) as [->|Hne].
  - rewrite merge_misses; [done|]. by rewrite Hr.
  - unfold merge. destruct (uid (records st !!! r0)) as [u|]; [|done].
    destruct (resource !! u); [|done]. simpl.
    by rewrite lookup_total_insert_ne.
Qed.

Lemma expand_keeps_missing r o fuel source st st' :
  misses resource o → records st !!! r = o →
  expand resource arrays fuel source st = Some st' → records st' !!! r = o.
Proof.
  intros Hm. apply (expand_preserves (λ s, records s !!! r = o)).
  - intros. by apply kept_merge.
  - done.
Qed.

Lemma visit_node_visited_mono fuel r key s node s' :
  visit_node (expand resource arrays fuel) r key s node = Some s' →
  visited s ⊆ visited s'.
Proof.
  intros Hrun.
  eapply (visit_node_preserves (λ s0, visited s ⊆ visited s0)); [..|exact Hrun].
  - intros p k c st Hst _. simpl. set_solver.
  - intros node0 st st0 Hst Hrun0. apply expand_visited_mono in Hrun0. set_solver.
  - done.
Qed.

Lemma visit_key_visited_mono fuel r s key s' :
  visit_key arrays (expand resource arrays fuel) r s key = Some s' →
  visited s ⊆ visited s'.
Proof.
  intros Hrun.
  eapply (visit_key_preserves (λ s0, visited s ⊆ visited s0)); [..|exact Hrun].
  - intros p k c st Hst _. simpl. set_solver.
  - intros node0 st st0 Hst Hrun0. apply expand_visited_mono in Hrun0. set_solver.
  - done.
Qed.

(** The loops of [expand] over a record that misses the index reach
    every element of every array-valued field: afterwards the visiting
    key of the edge is in the visited set. *)
Lemma expand_missing_edges fuel r st st' :
  misses resource (records st !!! r) →
  expand resource arrays (S fuel) (ERec r) st = Some st' →
  ∀ k a c,
    k ≠ "dgraph.type" →
    field_get k (fields (records st !!! r)) = Some (VArr a) →
    c ∈ arrays !!! a →
    ∃ cu, visitingKey (uid (records st !!! r)) k cu ∈ visited st'.
Proof.
  intros Hm Hrun k a c Hk Hget Hc. simpl in Hrun.
  rewrite merge_misses in Hrun by done.
  set (o := records st !!! r) in *.
  pose (Qn key := λ (c : elem) (s : estate),
          ∃ cu, visitingKey (uid o) key cu ∈ visited s).
  pose (Qk := λ (key : string) (s : estate),
          key ≠ "dgraph.type" →
          ∀ a c, field_get key (fields o) = Some (VArr a) → c ∈ arrays !!! a →
                 Qn key c s).
  assert (Hkept : ∀ s key s', records s !!! r = o →
            visit_key arrays (expand resource arrays fuel) r s key = Some s' →
            records s' !!! r = o).
  { intros s key s'. apply (visit_key_preserves (λ s, records s !!! r = o)).
    - done.
    - intros node s0 s0'. by apply expand_keeps_missing. }
  enough (Qk k st') as HQ by (by eapply HQ).
  eapply (forEachO_post (λ s, records s !!! r = o) Qk);
    [| |reflexivity|exact Hrun|by eapply field_get_Some_key].
  - intros s key s' _ Hs Hstep. split; [by eapply Hkept|].
    intros Hkey a' c' Hget' Hc'. unfold visit_key in Hstep.
    rewrite decide_False in Hstep by done. rewrite Hs, Hget' in Hstep.
    eapply (forEachO_post (λ s, records s !!! r = o) (Qn key));
      [| |exact Hs|exact Hstep|exact Hc'].
    + intros s0 node s0' _ Hs0 Hnode. split.
      * revert Hnode. apply (visit_node_preserves (λ s, records s !!! r = o)); try done.
        intros n0 s1 s1'. by apply expand_keeps_missing.
      * unfold visit_node in Hnode. rewrite Hs0 in Hnode.
        exists (elem_uid (records s0) node).
        case_decide as Hv; [by simplify_eq|].
        apply expand_visited_mono in Hnode. simpl in Hnode. set_solver.
    + intros s0 x y s0' _ _ [cu Hcu] Hy. exists cu.
      apply visit_node_visited_mono in Hy. set_solver.
  - intros s x y s' _ _ Hq Hy Hx a' c' Hget' Hc'.
    destruct (Hq Hx a' c' Hget' Hc') as [cu Hcu]. exists cu.
    apply visit_key_visited_mono in Hy. set_solver.
Qed.

Lemma expand_terminates source st :
  ∀ fuel,
    size (key_universe (uids_of (records st)) (keys_of (records st)) ∖ visited st)
      < fuel →
    is_Some (expand resource arrays fuel source st).
Proof. intros fuel. apply expand_total, bounded_initial. Qed.

(** C5 (visited guard).  [expand] returns for every store of records and
    arrays, cyclic or not, once the fuel exceeds the number of visiting
    keys that can be built from the uids and field names of the store and
    are not yet visited.  The edges it descends into have pairwise
    distinct visiting keys, none of which was in the visited set before,
    so no edge (parent uid, field name, child uid) is descended into
    twice; the visited set gains exactly these keys. *)
Theorem expand_descends_once_per_edge source st :
  (∀ fuel,
     size (key_universe (uids_of (records st)) (keys_of (records st)) ∖ visited st)
       < fuel →
     is_Some (expand resource arrays fuel source st))
  ∧ ∀ fuel st',
      expand resource arrays fuel source st = Some st' →
      ∃ new,
        descents st' = descents st ++ new
        ∧ NoDup new
        ∧ NoDup (edge_key <$> new)
        ∧ (∀ e, e ∈ new → edge_key e ∉ visited st)
        ∧ visited st' = visited st ∪ list_to_set (edge_key <$> new).
Proof.
  split; [apply expand_terminates|].
  intros fuel st' (new & Hd & Hnd & Hv & Hn)%expand_log.
  exists new. split_and!; try done. by eapply NoDup_fmap_1.
Qed.

(** C4 (merge from the resource index).  For a call of [expand] on the
record [r] that returns: when the uid of [r] is in the index, the
fields of the indexed record are assigned to [r] itself before its
keys are walked -- a key of the indexed record holds the indexed
value (arrays by reference), every other key holds what it held, no
other record changes -- and the walk goes over the keys of the merged
record.  When the uid is not in the index, or there is no uid, the
record is not written to, by this call or any nested one; its fields
are walked all the same, under the visited guard: for every element of
an array-valued field other than dgraph.type, the visiting key of the
edge was visited before the call or a descent with that key was made
during it.  The transform builds the instance of the record from its
own fields as they are then.  There is no error exit, and the call
returns for every fuel above the bound of the termination argument. *)
Theorem expand_merges_indexed_fields fuel r st st' :
  expand resource arrays (S fuel) (ERec r) st = Some st' →
  let old := records st !!! r in
  (∀ u r',
     uid old = Some u → resource !! u = Some r' →
     let indexed := records st !!! r' in
     let merged := object_assign old indexed in
     records (merge resource r st) = <[r := merged]> (records st)
     ∧ (NoDup (field_keys (fields indexed)) →
        ∀ k, field_get k (fields merged)
             = match field_get k (fields indexed) with
               | Some v => Some v
               | None => field_get k (fields old)
               end)
     ∧ forEachO (visit_key arrays (expand resource arrays fuel) r)
         (field_keys (fields merged)) (merge resource r st) = Some st')
  ∧ (misses resource old →
     merge resource r st = st
     ∧ records st' !!! r = old
     ∧ (∀ k a c,
          k ≠ "dgraph.type" →
          field_get k (fields old) = Some (VArr a) →
          c ∈ arrays !!! a →
          ∃ cu,
            visitingKey (uid old) k cu ∈ visited st
            ∨ ∃ e, e ∈ drop (length (descents st)) (descents st')
                   ∧ edge_key e = visitingKey (uid old) k cu)
     ∧ ∀ cls rest mst,
         ∃ xs mst',
           Private.plainToClass_elems (records st') cls (ERec r :: rest) mst
           = (IInst (next mst) :: xs, mst')
           ∧ instances mst' !! next mst
             = Some (Instance cls (Private.own_fields old)))
  ∧ ∀ fuel',
      size (key_universe (uids_of (records st)) (keys_of (records st)) ∖ visited st)
        < fuel' →
      is_Some (expand resource arrays fuel' (ERec r) st).
Proof.
  intros Hrun. cbn zeta. split_and!; [| |apply expand_terminates].
  - intros u r' Hu Hr'.
    assert (Hmerge : records (merge resource r st)
                     = <[r := object_assign (records st !!! r) (records st !!! r')]>
                         (records st)).
    { unfold merge. by rewrite Hu, Hr'. }
    split_and!; [done| |].
    + intros Hnd k. unfold object_assign. simpl. by apply field_get_assign.
    + simpl in Hrun. by rewrite Hmerge, lookup_total_insert_eq in Hrun.
  - intros Hm.
    assert (Hkept : records st' !!! r = records st !!! r)
      by (by eapply expand_keeps_missing).
    split_and!.
    + by apply merge_misses.
    + done.
    + intros k a c Hk Hget Hc.
      destruct (expand_missing_edges fuel r st st' Hm Hrun k a c Hk Hget Hc)
        as [cu Hcu].
      exists cu. apply expand_log in Hrun as (new & Hd & _ & Hv & _).
      rewrite Hv in Hcu. apply elem_of_union in Hcu as [Hcu|Hcu]; [by left|].
      right. apply elem_of_list_to_set, list_elem_of_fmap in Hcu as (e & He & Hin).
      exists e. split; [|done]. by rewrite Hd, drop_app_length.
    + intros cls rest mst.
      destruct (plainToClass_elems_head (records st') cls r rest mst)
        as (xs & mst' & H1 & H2).
      exists xs, mst'. by rewrite <- Hkept.
Qed.

Lemma expand_roots_total us ks fuel roots st :
  bounded us ks (records st) →
  size (key_universe us ks ∖ visited st) < fuel →
  is_Some (expand_roots resource arrays fuel roots st).
Proof.
  intros Hb Hsz. unfold expand_roots.
  edestruct (forEachO_total (progress_inv us ks (visited st))
               (λ s jd, expand resource arrays fuel jd s) roots)
    as (s' & Hs' & _); [| |by eauto]; [|by split].
  intros s jd _ [Hbs Hvs].
  destruct (expand_total us ks fuel jd s) as [s1 Hs1]; [done| |].
  - eapply Nat.le_lt_trans; [|exact Hsz]. apply subseteq_size. set_solver.
  - exists s1. split; [done|].
    eapply (expand_preserves (progress_inv us ks (visited st))); [..|exact Hs1].
    + intros. by apply progress_merge.
    + intros. by apply progress_mark.
    + by split.
Qed.

Lemma closed_merge A r st :
  array_closed A (records st) → array_closed A (records (merge resource r st)).
Proof.
  intros Hcl. unfold merge.
  destruct (uid (records st !!! r)) as [u|]; [|done].
  destruct (resource !! u) as [r'|]; [|done]. simpl.
  intros r0 k a. destruct (decide (r = r0)) as [<-|Hne].
  - rewrite lookup_total_insert_eq. unfold object_assign. simpl.
    intros [Hin|Hin]%field_assign_elem; by eapply Hcl.
  - rewrite lookup_total_insert_ne by done. apply Hcl.
Qed.

Lemma expand_roots_closed A fuel roots st st' :
  array_closed A (records st) →
  expand_roots resource arrays fuel roots st = Some st' →
  array_closed A (records st').
Proof.
  apply (expand_roots_preserves (λ s, array_closed A (records s))).
  - intros. by apply closed_merge.
  - done.
Qed.

End expand_facts.

(** The root of the worked input is merged with the indexed record of a. *)
Lemma expand_merges_indexed_fields_witness :
  Expand.expand Example.resource Example.raw_arrays 3 (ERec 1) Example.start
  = Some Example.expanded
  ∧ field_get "name"
      (fields (records (Expand.merge Example.resource 1 Example.start) !!! 1))
    = Some (VPrim (PStr "A"))
  ∧ field_get "friends"
      (fields (records (Expand.merge Example.resource 1 Example.start) !!! 1))
    = Some (VArr 12).
Proof.
  assert (Hrun : Expand.expand Example.resource Example.raw_arrays 3 (ERec 1)
Example.start = Some Example.expanded)
by (vm_compute; reflexivity).
split; [exact Hrun|].
destruct (expand_merges_indexed_fields Example.resource Example.raw_arrays
2 1 Example.start Example.expanded Hrun) as (Hhit & _ & _).
destruct (Hhit "a" 5 eq_refl eq_refl) as (Hrec & Hget & _).
  rewrite Hrec, lookup_total_insert_eq.
  assert (Hnd : NoDup (field_keys (fields (records Example.start !!! 5)))).
  { apply (bool_decide_unpack (NoDup _)). vm_compute. exact I. }
  split; [rewrite (Hget Hnd "name")|rewrite (Hget Hnd "friends")];
    vm_compute; reflexivity.
Defined.

(** A record without uid is not merged; its friends are walked. *)
Example expand_record_without_uid :
  Expand.expand Example.resource Example.raw_arrays 5 (ERec 7) Example.start
  = Some Example.expanded_no_uid
  ∧ records Example.expanded_no_uid !!! 7 = RawObj None [("friends", VArr 13)]
  ∧ descents Example.expanded_no_uid
    = [(None, "friends", Some "b"); (Some "b", "friends", Some "a");
       (Some "a", "friends", Some "b"); (None, "friends", None)].
Proof. vm_compute. done. Qed.


(** ** The transform phase *)

Section transform_facts.
Import Private.
Variable metadata : MetadataStorage.
Variable recs : gmap rid rawObj.
Variable arrays : gmap aid (list elem).

Lemma forEach_preserves {A} (I : mstate → Prop)
    (body : A → mstate → outcome unit) l :
  (∀ x st u st', x ∈ l → I st → body x st = Done u st' → I st') →
  ∀ st u st', I st → forEach body l st = Done u st' → I st'.
Proof.
  induction l as [|x l IH]; intros Hbody st u st' Hst; simpl.
  - by intros [= _ <-].
  - destruct (body x st) as [u1 st1| |] eqn:E; simpl; [|done..]. intros Hl.
    eapply IH; [| |exact Hl].
    + intros y s0 u0 s0' Hy. apply Hbody. apply elem_of_cons. by right.
    + eapply Hbody; [|exact Hst|exact E]. apply elem_of_cons. by left.
Qed.

Lemma step_refl n st : step n st st.
Proof. by split_and!. Qed.

Lemma step_trans n st1 st2 st3 : step n st1 st2 → step n st2 st3 → step n st1 st3.
Proof.
  intros (Hn1 & Ha1 & Hs1) (Hn2 & Ha2 & Hs2). split_and!.
  - lia.
  - intros j p Hj. rewrite Ha2, Ha1; done.
  - by etrans.
Qed.

Lemma step_weaken n m st st' : m ≤ n → step n st st' → step m st st'.
Proof.
  intros Hle (Hn & Ha & Hs). split_and!; [done| |done].
  intros j p Hj. apply Ha. lia.
Qed.

(** A loop of steps is a step. *)
Lemma forEach_step {A} n (I : mstate → Prop)
    (body : A → mstate → outcome unit) l :
  (∀ x st u st', x ∈ l → I st → body x st = Done u st' → step n st st' ∧ I st') →
  ∀ st u st', I st → forEach body l st = Done u st' → step n st st' ∧ I st'.
Proof.
  intros Hbody st u st' Hst Hrun.
  cut (step n st st' ∧ I st'); [done|].
  revert Hrun.
  apply (forEach_preserves (λ s, step n st s ∧ I s)); [|split; [apply step_refl|done]].
  intros x s u0 s' Hx [Hs Hi] Hb.
  destruct (Hbody x s u0 s' Hx Hi Hb) as [Hs' Hi'].
  split; [by eapply step_trans|done].
Qed.

(** *** The pieces that install accessors *)

Lemma trackProperty_Done x propertyName name st u st' :
  trackProperty x propertyName name st = Done u st' →
  ∃ i, x = IInst i
       ∧ st' = set_accessors (<[(i, propertyName) := Tracked name]> (accessors st)) st.
Proof. destruct x as [i|p]; simpl; [|done]. intros [= _ <-]. by eauto. Qed.

Lemma clean_set_accessors st k acc :
  clean st →
  (∀ m c, acc = PredicateAccessor m (Some c) → PredicateImpl.getDiff c = []) →
  clean (set_accessors (<[k := acc]> (accessors st)) st).
Proof.
  intros [Hd Hc] Hacc. split; [done|]. simpl. intros i p m c.
  destruct (decide (k = (i, p))) as [->|Hne].
  - rewrite lookup_insert_eq. intros [= ->]. by eapply Hacc.
  - rewrite lookup_insert_ne by done. apply Hc.
Qed.

Lemma step_set_accessors n st i p acc :
  n ≤ i → step n st (set_accessors (<[(i, p) := acc]> (accessors st)) st).
Proof.
  intros Hle. split_and!; simpl; [done| |done].
  intros j q Hj. rewrite lookup_insert_ne; [done|]. intros [= -> _]. lia.
Qed.

Lemma trackProperty_step n i propertyName name st u st' :
  n ≤ i →
  trackProperty (IInst i) propertyName name st = Done u st' →
  step n st st' ∧ (clean st → clean st') ∧ (stored st → stored st')
  ∧ heap st' = heap st ∧ diff st' = diff st.
Proof.
  intros Hle [= _ <-]. split_and!; try done.
  - by apply step_set_accessors.
  - intros Hc. by apply clean_set_accessors.
Qed.

(** A loop that tracks properties of one instance. *)
Lemma forEach_trackProperty_step {A} n i (f : A → string) (g : A → option string)
    l st u st' :
  n ≤ i →
  forEach (λ x, trackProperty (IInst i) (f x) (g x)) l st = Done u st' →
  step n st st' ∧ (clean st → clean st') ∧ (stored st → stored st')
  ∧ heap st' = heap st ∧ diff st' = diff st.
Proof.
  intros Hle Hrun.
  cut (step n st st' ∧ ((clean st → clean st') ∧ (stored st → stored st')
                        ∧ heap st' = heap st ∧ diff st' = diff st)); [tauto|].
  revert Hrun. apply (forEach_step n (λ s, (clean st → clean s) ∧ (stored st → stored s)
                                         ∧ heap s = heap st ∧ diff s = diff st));
    [|by split_and!].
  intros x s u0 s' _ (Hc & Hs & Hh & Hd) Hb.
  destruct (trackProperty_step n i _ _ _ _ _ Hle Hb) as (H1 & H2 & H3 & H4 & H5).
  split; [done|]. split_and!; [tauto|tauto|congruence|congruence].
Qed.

Lemma forEach_IPrim_Done {A} (body : A → mstate → outcome unit) l st u st' :
  (∀ x s, x ∈ l → body x s = Threw "TypeError: Object.defineProperty called on non-object") →
  forEach body l st = Done u st' → st' = st.
Proof.
  destruct l as [|x l]; simpl; [by intros _ [= _ <-]|].
  intros Hb. rewrite Hb; [done|]. apply elem_of_cons. by left.
Qed.

Lemma trackProperties_step n x st u st' :
  (∀ i, x = IInst i → n ≤ i) →
  trackProperties metadata x st = Done u st' →
  step n st st' ∧ (clean st → clean st') ∧ (stored st → stored st')
  ∧ heap st' = heap st ∧ diff st' = diff st
  ∧ instances st' = instances st.
Proof.
  intros Hx. unfold trackProperties.
  destruct (properties metadata !! constructor_name st x) as [props|];
    [|intros [= _ <-]; split_and!; (done || apply step_refl)].
  destruct x as [i|p].
  - intros Hrun.
    destruct (forEach_trackProperty_step n i prop_propertyName
                (λ prop, Some (prop_name prop)) props st u st' (Hx i eq_refl) Hrun)
      as (H1 & H2 & H3 & H4 & H5).
    split_and!; try done.
    revert Hrun. apply (forEach_preserves (λ s, instances s = instances st)); [|done].
    intros y s u0 s' _ Hs [= _ <-]. done.
  - intros ->%forEach_IPrim_Done; [|done]. split_and!; (done || apply step_refl).
Qed.

Lemma trackPredicate_Done x pred st u st' :
  trackPredicate x pred st = Done u st' →
  ∃ i, x = IInst i
       ∧ st' = set_accessors
                 (<[(i, pred_propertyName pred) := PredicateAccessor pred None]>
                    (accessors st)) st.
Proof. destruct x as [i|p]; simpl; [|done]. intros [= _ <-]. by eauto. Qed.

(** *** The three invariants read only part of the state *)

Lemma step_same n st st' :
  next st ≤ next st' → accessors st' = accessors st → storage st' = storage st →
  step n st st'.
Proof. intros Hn Ha Hs. split_and!; [done|by rewrite Ha|by rewrite Hs]. Qed.

Lemma clean_same st st' :
  diff st' = diff st → accessors st' = accessors st → clean st → clean st'.
Proof. intros Hd Ha [H1 H2]. split; [by rewrite Hd|by rewrite Ha]. Qed.

Lemma stored_same st st' :
  storage st' = storage st → produced st' = produced st →
  assignments st' = assignments st → stored st → stored st'.
Proof. intros Hs Hp Ha (H1 & H2 & H3). unfold stored. by rewrite Hs, Hp, Ha. Qed.

Lemma diffOf_purge i j d :
  DiffTracker.diffOf i d = ∅ →
  DiffTracker.diffOf i (DiffTracker.purgeInstance j d) = ∅.
Proof.
  unfold DiffTracker.diffOf, DiffTracker.purgeInstance. intros H.
  destruct (decide (j = i)) as [->|Hne].
  - by rewrite lookup_delete_eq.
  - by rewrite lookup_delete_ne.
Qed.

Lemma clean_purge x st : clean st → clean (purgeInstance x st).
Proof.
  intros [H1 H2]. destruct x as [i|p]; [|done]. split; [|done].
  intros j. simpl. by apply diffOf_purge.
Qed.

(** *** The setter of the predicate accessor pair *)

Lemma setup_facet_step n owner pred fms v st u st' :
  n ≤ next st →
  setup_facet owner pred fms v st = Done u st' →
  step n st st' ∧ (clean st → clean st') ∧ (stored st → stored st').
Proof.
  intros Hn. unfold setup_facet. destruct v as [j|p]; [|done].
  destruct (move_facet_fields _ _ _) as [plain v_fields].
  unfold plainToClass_object.
  match goal with
  | |- bind (forEach ?b fms ?s3) _ = _ → _ =>
      set (st3 := s3); destruct (forEach b fms st3) as [u4 st4| |] eqn:E4; [|done..]
  end.
  simpl. intros [= _ <-].
  destruct (forEach_trackProperty_step n (next st) facet_propertyName (λ _, None)
              fms st3 u4 st4) as (H1 & H2 & H3 & H4 & H5); [done|exact E4|].
  split_and!.
  - eapply step_trans; [|eapply step_trans; [exact H1|]].
    + apply step_same; simpl; [lia|done..].
    + apply step_same; [|done..]. done.
  - intros Hc.
    apply (clean_purge (IInst j) (purgeInstance (IInst (next st)) st4)).
    apply (clean_purge (IInst (next st)) st4). apply H2.
    revert Hc. by apply clean_same.
  - intros Hs. eapply (stored_same st4); [done..|]. apply H3.
    revert Hs. by apply stored_same.
Qed.

Lemma predicate_set_array_step n owner pred a st u st' :
  n ≤ owner → n ≤ next st →
  predicate_set metadata owner pred (AssignArray a) st = Done u st' →
  step n st st' ∧ (clean st → clean st') ∧ (stored st → stored st').
Proof.
  intros Ho Hn. unfold predicate_set.
  match goal with
  | |- bind (forEach ?b ?l st) _ = _ → _ =>
      destruct (forEach b l st) as [u2 st2| |] eqn:E2; [|done..]
  end.
  simpl. intros [= _ <-].
  assert (step n st st2
          ∧ (n ≤ next st2 ∧ (clean st → clean st2) ∧ (stored st → stored st2)))
    as (H1 & _ & H2 & H3).
  { revert E2.
    apply (forEach_step n (λ s, n ≤ next s ∧ (clean st → clean s)
                                ∧ (stored st → stored s))); [|by split_and!].
    intros x s u0 s' _ (Hns & Hc & Hs) Hb.
    destruct (setup_facet_step n _ _ _ _ _ _ _ Hns Hb) as (G1 & G2 & G3).
    split; [done|]. split_and!; [|tauto..]. destruct G1 as [? _]. lia. }
  split_and!.
  - eapply step_trans; [exact H1|]. by apply step_set_accessors.
  - intros Hc. apply clean_set_accessors; [by apply H2|].
    by intros m c [= _ <-].
  - intros Hs. eapply (stored_same st2); [done..|]. by apply H3.
Qed.


Lemma predicate_set_array_stores owner pred a st u st' :
  predicate_set metadata owner pred (AssignArray a) st = Done u st' →
  ∃ c,
    accessors st' !! (owner, pred_propertyName pred)
    = Some (PredicateAccessor pred (Some c))
    ∧ PredicateImpl._data c = a
    ∧ PredicateImpl._parent c = owner.
Proof.
  unfold predicate_set.
  match goal with
  | |- bind (forEach ?b ?l st) _ = _ → _ =>
      destruct (forEach b l st) as [u2 st2| |]; [|done..]
  end.
  simpl. intros [= _ <-]. eexists. split; [apply lookup_insert_eq|done].
Qed.

(** *** The executor *)

Lemma plainToClass_elems_spec cls plain :
  ∀ st xs st1,
    plainToClass_elems recs cls plain st = (xs, st1) →
    next st ≤ next st1
    ∧ accessors st1 = accessors st ∧ storage st1 = storage st
    ∧ diff st1 = diff st ∧ heap st1 = heap st
    ∧ produced st1 = produced st ∧ assignments st1 = assignments st
    ∧ (∀ i, IInst i ∈ xs → next st ≤ i ∧ i < next st1).
Proof.
  induction plain as [|[r|p] plain IH]; intros st xs st1; simpl.
  - intros [= <- <-]. split_and!; try done. intros i Hi. by apply elem_of_nil in Hi.
  - destruct (plainToClass_elems recs cls plain _) as [ys st2] eqn:E.
    intros [= <- <-].
    destruct (IH _ _ _ E) as (H1 & H2 & H3 & H4 & H5 & H6 & H7 & H8).
    simpl in *. split_and!; try done; [lia|].
    intros i Hi. apply elem_of_cons in Hi as [[= ->]|Hi]; [lia|].
    apply H8 in Hi. lia.
  - destruct (plainToClass_elems recs cls plain _) as [ys st2] eqn:E.
    intros [= <- <-].
    destruct (IH _ _ _ E) as (H1 & H2 & H3 & H4 & H5 & H6 & H7 & H8).
    split_and!; try done.
    intros i Hi. apply elem_of_cons in Hi as [[=]|Hi]. by apply H8.
Qed.

Lemma stored_log i p a ia st :
  stored st → storage st !! a = Some ia →
  stored (log_assignment (IInst i) p a ia st).
Proof.
  intros (H1 & H2 & H3) Ha. split_and!; simpl; [|done..].
  intros i0 p0 a0 ia0 Hin. apply elem_of_app in Hin as [Hin|Hin]; [by eapply H1|].
  apply list_elem_of_singleton in Hin. by simplify_eq.
Qed.

Lemma stored_storage_set a ia st :
  stored st → storage st !! a = None → stored (storage_set a ia st).
Proof.
  intros (H1 & H2 & H3) Ha. split_and!; simpl.
  - intros i p a0 ia0 Hin. apply H1 in Hin.
    rewrite lookup_insert_ne; [done|]. congruence.
  - rewrite fmap_app. apply NoDup_app. split_and!; [done| |apply NoDup_singleton].
    intros x Hx Hx'. simpl in Hx'. apply list_elem_of_singleton in Hx' as ->.
    apply list_elem_of_fmap in Hx as ([a1 ia1] & -> & Hin). simpl in Ha.
    apply H3 in Hin. simpl in Hin. congruence.
  - intros a0 ia0. rewrite elem_of_app, list_elem_of_singleton, H3.
    destruct (decide (a = a0)) as [->|Hne].
    + rewrite lookup_insert_eq. split; [|naive_solver].
      intros [Hs|Heq]; [congruence|by simplify_eq].
    + rewrite lookup_insert_ne by done. split; [|by left].
      intros [Hs|Heq]; [done|by simplify_eq].
Qed.

Section with_rec.
Variable rec : string → aid → mstate → outcome aid.
Hypothesis Hrec : executor_spec rec.

Lemma process_predicate_step n x raw pred st u st' :
  (∀ i, x = IInst i → n ≤ i ∧ i < next st) →
  process_predicate metadata recs rec x raw pred st = Done u st' →
  step n st st' ∧ (clean st → clean st') ∧ (stored st → stored st').
Proof.
  intros Hx. unfold process_predicate.
  destruct (trackPredicate x pred st) as [u1 s1| |] eqn:E1; [|done..]. simpl.
  apply trackPredicate_Done in E1 as (i & -> & Hs1).
  destruct (Hx i eq_refl) as [Hni Hi].
  assert (Hstep1 : step n st s1) by (subst s1; by apply step_set_accessors).
  assert (Hclean1 : clean st → clean s1).
  { intros Hc. subst s1. by apply clean_set_accessors. }
  assert (Hstored1 : stored st → stored s1).
  { subst s1. by apply stored_same. }
  assert (Hacc1 : accessors s1 !! (i, pred_propertyName pred)
                  = Some (PredicateAccessor pred None)).
  { subst s1. simpl. apply lookup_insert_eq. }
  assert (Hnext1 : next s1 = next st) by (by subst s1).
  clear Hs1.
  destruct (truthy (raw_field recs raw (pred_name pred)));
    [|intros [= _ <-]; by split_and!].
  destruct (raw_field recs raw (pred_name pred)) as [| |p|a]; try done.
  destruct (rec (pred_type pred) a s1) as [ia s2| |] eqn:E2; [|done..]. simpl.
  destruct (Hrec _ _ _ _ _ E2) as ((Hn2 & Ha2 & Hs2) & Hst2 & Hc2 & Hsd2).
  unfold assign_property.
  replace (accessors (log_assignment (IInst i) (pred_propertyName pred) a ia s2))
    with (accessors s2) by done.
  rewrite Ha2 by lia. rewrite Hacc1. intros Hset.
  apply (predicate_set_array_step n) in Hset as (G1 & G2 & G3);
    [|done|simpl; lia].
  split_and!.
  - eapply step_trans; [exact Hstep1|].
    eapply (step_trans n s1 s2);
      [apply (step_weaken (next s1)); [lia|by split_and!]|].
    eapply step_trans; [|exact G1]. by apply step_same.
  - intros Hc. apply G2. eapply (clean_same s2); [done..|]. tauto.
  - intros Hs. apply G3. apply stored_log; tauto.
Qed.

Lemma process_instance_step n x raw st u st' :
  (∀ i, x = IInst i → n ≤ i ∧ i < next st) →
  process_instance metadata recs rec (x, raw) st = Done u st' →
  step n st st' ∧ (clean st → clean st') ∧ (stored st → stored st').
Proof.
  intros Hx. unfold process_instance.
  destruct (trackProperties metadata x st) as [u1 s1| |] eqn:E1; [|done..]. simpl.
  apply (trackProperties_step n) in E1 as (H1 & H2 & H3 & _);
    [|intros i Hi; by apply Hx].
  destruct (predicates metadata !! constructor_name s1 x) as [preds|];
    [|intros [= _ <-]; by split_and!].
  intros Hrun.
  assert (step n s1 st'
          ∧ (next st ≤ next st' ∧ (clean s1 → clean st') ∧ (stored s1 → stored st')))
    as (G1 & _ & G2 & G3).
  { revert Hrun.
    apply (forEach_step n (λ s, next st ≤ next s ∧ (clean s1 → clean s)
                                ∧ (stored s1 → stored s)));
      [|split_and!; [by destruct H1|done..]].
    intros pred s u0 s' _ (Hns & Hc & Hs) Hb.
    apply (process_predicate_step n) in Hb as (K1 & K2 & K3).
    - split; [done|]. split_and!; [|tauto..]. destruct K1 as [? _]. lia.
    - intros i Hi. destruct (Hx i Hi). split; lia. }
  split_and!; [by eapply step_trans|tauto..].
Qed.

Lemma executor_body_spec : executor_spec (executor_body metadata recs arrays rec).
Proof.
  intros cls a st ia st'. unfold executor_body.
  destruct (storage st !! a) as [ia0|] eqn:Ehit.
  { intros [= <- <-]. split_and!; [apply step_refl|done..]. }
  unfold plainToClass_array.
  destruct (plainToClass_elems recs cls (arrays !!! a) st) as [xs st1] eqn:E1.
  apply plainToClass_elems_spec in E1
    as (P1 & P2 & P3 & P4 & P5 & P6 & P7 & P8).
  unfold new_array.
  match goal with
  | |- bind (forEach _ _ ?s) _ = _ → _ => set (st2 := s)
  end.
  set (pairs := zip _ _).
  destruct (forEach (process_instance metadata recs rec) pairs st2)
    as [u3 st3| |] eqn:E3; [|done..].
  simpl. intros [= <- <-].
  assert (Hpairs : ∀ x raw, (x, raw) ∈ pairs → x ∈ xs).
  { intros x raw. subst pairs st2. simpl. rewrite lookup_total_insert_eq.
    apply elem_of_zip_l. }
  assert (step (next st) st2 st3
          ∧ (next st2 ≤ next st3 ∧ (clean st2 → clean st3)
             ∧ (stored st2 → stored st3)))
    as (G1 & _ & G2 & G3).
  { revert E3.
    apply (forEach_step (next st)
             (λ s, next st2 ≤ next s ∧ (clean st2 → clean s)
                   ∧ (stored st2 → stored s))); [|by split_and!].
    intros [x raw] s u0 s' Hin (Hns & Hc & Hs) Hb.
    apply (process_instance_step (next st)) in Hb as (K1 & K2 & K3).
    - split; [done|]. split_and!; [|tauto..]. destruct K1 as [? _]. lia.
    - intros i ->. apply Hpairs, P8 in Hin. subst st2. simpl in Hns. lia. }
  assert (Hstep2 : step (next st) st st2).
  { subst st2. split_and!; simpl; [lia|by rewrite P2|].
    rewrite P3. by apply insert_subseteq. }
  split_and!.
  - by eapply step_trans.
  - destruct G1 as (_ & _ & Hsub). eapply lookup_weaken; [|exact Hsub].
    subst st2. simpl. apply lookup_insert_eq.
  - intros Hc. apply G2. subst st2. eapply (clean_same st); [done..|done].
  - intros Hs. apply G3. subst st2.
    apply (stored_storage_set a (next st1)
             (set_next (S (next st1))
                (set_heap (World (<[next st1 := xs]> (iarrays (heap st1)))
                                 (facetStorage (heap st1))) st1))).
    + eapply (stored_same st); [done..|done].
    + simpl. by rewrite P3.
Qed.
End with_rec.

Lemma plainToClassExecutor_spec fuel :
  executor_spec (plainToClassExecutor metadata recs arrays fuel).
Proof.
  induction fuel as [|fuel IH]; [by intros cls a st ia st'|].
  simpl. by apply executor_body_spec.
Qed.


(** *** The executor returns or throws when the fuel suffices *)

Lemma forEach_fuel {A} (I : mstate → Prop)
    (body : A → mstate → outcome unit) l :
  (∀ x st, x ∈ l → I st →
     body x st ≠ OutOfFuel ∧ ∀ u st', body x st = Done u st' → I st') →
  ∀ st, I st → forEach body l st ≠ OutOfFuel.
Proof.
  induction l as [|x l IH]; intros Hbody st Hst; simpl; [done|].
  destruct (Hbody x st) as [Hne Hd]; [apply elem_of_cons; by left|done|].
  destruct (body x st) as [u1 st1| |]; simpl; [|done..].
  apply IH; [|by eapply Hd].
  intros y s Hy. apply Hbody. apply elem_of_cons. by right.
Qed.

Lemma forEach_trackProperty_fuel {A} x (f : A → string) (g : A → option string) l st :
  forEach (λ y, trackProperty x (f y) (g y)) l st ≠ OutOfFuel.
Proof.
  apply (forEach_fuel (λ _, True)); [|done].
  intros y s _ _. split; [by destruct x|done].
Qed.

Lemma trackProperties_fuel x st : trackProperties metadata x st ≠ OutOfFuel.
Proof.
  unfold trackProperties. destruct (properties metadata !! _); [|done].
  apply forEach_trackProperty_fuel.
Qed.

Lemma setup_facet_fuel owner pred fms v st :
  setup_facet owner pred fms v st ≠ OutOfFuel.
Proof.
  unfold setup_facet. destruct v as [j|p]; [|done].
  destruct (move_facet_fields _ _ _) as [plain v_fields].
  unfold plainToClass_object.
  match goal with
  | |- bind (forEach ?b fms ?s3) _ ≠ _ =>
      assert (forEach b fms s3 ≠ OutOfFuel) as Hne
        by apply (forEach_trackProperty_fuel _ facet_propertyName (λ _, None));
      destruct (forEach b fms s3)
  end; done.
Qed.

Lemma predicate_set_fuel owner pred value st :
  predicate_set metadata owner pred value st ≠ OutOfFuel.
Proof.
  unfold predicate_set.
  destruct (match value with
            | AssignArray a => _ | AssignCollection c => _ | AssignNullish => _
            end) as [c st1].
  match goal with
  | |- bind (forEach ?b ?l ?s) _ ≠ _ =>
      assert (forEach b l s ≠ OutOfFuel) as Hne;
      [|destruct (forEach b l s); done]
  end.
  apply (forEach_fuel (λ _, True)); [|done].
  intros v s _ _. split; [apply setup_facet_fuel|done].
Qed.

Lemma assign_property_fuel x p value st :
  assign_property metadata x p value st ≠ OutOfFuel.
Proof.
  unfold assign_property. destruct x as [i|q]; [|done].
  destruct (accessors st !! (i, p)) as [[n|pred sv]|]; try done.
  apply predicate_set_fuel.
Qed.

Lemma enough_fuel_mono A f st st' :
  storage st ⊆ storage st' → enough_fuel A f st → enough_fuel A f st'.
Proof.
  unfold enough_fuel. intros Hsub%subseteq_dom Hf.
  eapply Nat.le_lt_trans; [|exact Hf]. apply subseteq_size. set_solver.
Qed.

Lemma raw_field_closed A raw name a :
  array_closed A recs → raw_field recs raw name = VArr a → a ∈ A.
Proof.
  intros Hcl. destruct raw as [r|p]; simpl; [|done].
  case_decide; [by destruct (uid (recs !!! r))|].
  destruct (field_get name (fields (recs !!! r))) as [v|] eqn:E; simpl; [|done].
  intros ->. apply field_get_elem in E. by eapply Hcl.
Qed.

Section fuel_with_rec.
Variable A : gset aid.
Hypothesis Hclosed : array_closed A recs.
Variable f : nat.
Variable rec : string → aid → mstate → outcome aid.
Hypothesis Hrec : executor_spec rec.
Hypothesis Hrec_fuel :
  ∀ cls a st, a ∈ A → enough_fuel A f st → rec cls a st ≠ OutOfFuel.

Lemma process_predicate_fuel x raw pred st :
  enough_fuel A f st →
  process_predicate metadata recs rec x raw pred st ≠ OutOfFuel.
Proof.
  intros Hf. unfold process_predicate.
  destruct x as [i|q]; [|done]. cbn [trackPredicate bind].
  destruct (truthy (raw_field recs raw (pred_name pred))); [|done].
  destruct (raw_field recs raw (pred_name pred)) as [| |p|a] eqn:Er; try done.
  match goal with
  | |- bind (rec ?c a ?s1) _ ≠ _ =>
      pose proof (Hrec_fuel c a s1) as Hne; destruct (rec c a s1)
  end; cbn [bind]; [apply assign_property_fuel|done|].
  exfalso. apply Hne; [by eapply raw_field_closed|done|done].
Qed.

Lemma process_instance_fuel n x raw st :
  (∀ i, x = IInst i → n ≤ i ∧ i < next st) →
  enough_fuel A f st →
  process_instance metadata recs rec (x, raw) st ≠ OutOfFuel.
Proof.
  intros Hx Hf. unfold process_instance.
  pose proof (trackProperties_fuel x st) as Hne.
  destruct (trackProperties metadata x st) as [u1 s1| |] eqn:E1; [|done..]. simpl.
  apply (trackProperties_step n) in E1 as ((Hn1 & _ & Hs1) & _);
    [|intros i Hi; by apply Hx].
  destruct (predicates metadata !! constructor_name s1 x) as [preds|]; [|done].
  apply (forEach_fuel (λ s, enough_fuel A f s ∧ next st ≤ next s));
    [|split; [by eapply enough_fuel_mono|done]].
  intros pred s _ [Hfs Hns]. split; [by apply process_predicate_fuel|].
  intros u st' Hb.
  apply (process_predicate_step rec Hrec n) in Hb as ((K1 & _ & K3) & _).
  - split; [by eapply enough_fuel_mono|lia].
  - intros i Hi. destruct (Hx i Hi). split; lia.
Qed.
End fuel_with_rec.

Lemma plainToClassExecutor_fuel A :
  array_closed A recs →
  ∀ fuel cls a st,
    a ∈ A → enough_fuel A fuel st →
    plainToClassExecutor metadata recs arrays fuel cls a st ≠ OutOfFuel.
Proof.
  intros Hclosed. induction fuel as [|fuel IH]; intros cls a st Ha Hf.
  { unfold enough_fuel in Hf. lia. }
  simpl. unfold executor_body.
  destruct (storage st !! a) as [ia0|] eqn:Ehit; [done|].
  unfold plainToClass_array.
  destruct (plainToClass_elems recs cls (arrays !!! a) st) as [xs st1] eqn:E1.
  apply plainToClass_elems_spec in E1
    as (P1 & P2 & P3 & P4 & P5 & P6 & P7 & P8).
  unfold new_array.
  match goal with
  | |- bind (forEach _ _ ?s) _ ≠ _ => set (st2 := s)
  end.
  set (pairs := zip _ _).
  assert (Hpairs : ∀ x raw, (x, raw) ∈ pairs → x ∈ xs).
  { intros x raw. subst pairs st2. simpl. rewrite lookup_total_insert_eq.
    apply elem_of_zip_l. }
  assert (Hf2 : enough_fuel A fuel st2).
  { unfold enough_fuel in *. subst st2. simpl. rewrite dom_insert_L, P3.
    apply not_elem_of_dom in Ehit.
    assert (A ∖ ({[a]} ∪ dom (storage st)) ⊂ A ∖ dom (storage st)) as Hsub
      by set_solver.
    apply subset_size in Hsub. lia. }
  assert (forEach (process_instance metadata recs
                     (plainToClassExecutor metadata recs arrays fuel)) pairs st2
          ≠ OutOfFuel) as Hne.
  { apply (forEach_fuel (λ s, enough_fuel A fuel s ∧ next st2 ≤ next s));
      [|by split].
    intros [x raw] s Hin [Hfs Hns].
    assert (Hx : ∀ i, x = IInst i → next st ≤ i ∧ i < next s).
    { intros i ->. apply Hpairs, P8 in Hin. subst st2. simpl in Hns. lia. }
    split.
    - eapply (process_instance_fuel A Hclosed fuel); try done.
      apply plainToClassExecutor_spec.
    - intros u st' Hb.
      apply (process_instance_step _ (plainToClassExecutor_spec fuel) (next st))
        in Hb as ((K1 & _ & K3) & _); [|done].
      split; [by eapply enough_fuel_mono|lia]. }
  destruct (forEach _ pairs st2); done.
Qed.

Lemma arrays_of_closed root : array_closed (arrays_of recs root) recs.
Proof.
  intros r k a Hin. unfold arrays_of. apply elem_of_union. right.
  apply elem_of_list_to_set, list_elem_of_bind.
  rewrite lookup_total_alt in Hin.
  destruct (recs !! r) as [o|] eqn:E; simpl in Hin; [|by apply elem_of_nil in Hin].
  exists o. split.
  - unfold field_arrays. apply list_elem_of_omap. by exists (k, VArr a).
  - apply list_elem_of_fmap. exists (r, o). split; [done|].
    by apply elem_of_map_to_list.
Qed.

(** [transform] returns or throws for every input once the fuel exceeds
    the number of raw arrays. *)
Lemma transform_fuel fuel cls root st :
  size (arrays_of recs root) < fuel →
  transform metadata recs arrays fuel cls root st ≠ OutOfFuel.
Proof.
  intros Hf. unfold transform.
  apply (plainToClassExecutor_fuel (arrays_of recs root)).
  - apply arrays_of_closed.
  - unfold arrays_of. set_solver.
  - unfold enough_fuel. simpl. rewrite dom_empty_L.
    eapply Nat.le_lt_trans; [|exact Hf]. apply subseteq_size. set_solver.
Qed.


(** C1 (memoization by raw-array identity).  The executor looks the raw
    array up in the storage before anything else: on a hit it returns the
    stored instance array and leaves the state as it is.  After a
    transform that returned, the root array and every raw array that was
    converted for a predicate sit in the storage with the instance array
    that was returned for them, so two assignments made for the same raw
    array -- two branches of a diamond, or a cycle back to an array under
    conversion -- carried the same instance array, and the setter stores a
    collection backed by the very array it is given; the instance arrays
    built are exactly the entries of the storage, one per raw array.
    The transform returns or throws once the fuel exceeds the number of
    raw arrays. *)
Theorem transform_memoizes_by_array_identity fuel cls root st0 ia st' :
  transform metadata recs arrays fuel cls root st0 = Done ia st' →
  (∀ fuel' cls' st a ia',
     storage st !! a = Some ia' →
     plainToClassExecutor metadata recs arrays (S fuel') cls' a st = Done ia' st)
  ∧ storage st' !! root = Some ia
  ∧ (∀ owner pred a st u st1,
       predicate_set metadata owner pred (AssignArray a) st = Done u st1 →
       ∃ c,
         accessors st1 !! (owner, pred_propertyName pred)
         = Some (PredicateAccessor pred (Some c))
         ∧ PredicateImpl._data c = a
         ∧ PredicateImpl._parent c = owner)
  ∧ (∀ i p a ia', (i, p, a, ia') ∈ assignments st' → storage st' !! a = Some ia')
  ∧ (∀ i1 p1 i2 p2 a ia1 ia2,
       (i1, p1, a, ia1) ∈ assignments st' → (i2, p2, a, ia2) ∈ assignments st' →
       ia1 = ia2)
  ∧ NoDup (produced st').*1
  ∧ (∀ a ia', (a, ia') ∈ produced st' ↔ storage st' !! a = Some ia')
  ∧ ∀ fuel',
      size (arrays_of recs root) < fuel' →
      transform metadata recs arrays fuel' cls root st0 ≠ OutOfFuel.
Proof.
  intros Hrun. unfold transform in Hrun.
  apply plainToClassExecutor_spec in Hrun as (_ & Hroot & _ & Hstored).
  destruct Hstored as (H1 & H2 & H3).
  { split_and!; simpl.
    - intros i p a ia' Hin. by apply elem_of_nil in Hin.
    - constructor.
    - intros a ia'. rewrite lookup_empty. split; [|done].
      intros Hin. by apply elem_of_nil in Hin. }
  split_and!.
  - intros fuel' cls' st a ia' Hhit. simpl. unfold executor_body. by rewrite Hhit.
  - exact Hroot.
  - intros owner pred a st u st1. apply predicate_set_array_stores.
  - exact H1.
  - intros i1 p1 i2 p2 a ia1 ia2 Hin1 Hin2.
    apply H1 in Hin1. apply H1 in Hin2. congruence.
  - exact H2.
  - exact H3.
  - intros fuel'. apply transform_fuel.
Qed.

End transform_facts.

(** In the worked input the root a and the nested a hold the same
    instance array for their friends. *)
Lemma transform_memoizes_by_array_identity_witness :
  Private.transform Example.metadata (records Example.expanded) Example.raw_arrays 4
    "Person" 0 Private.initial = Done 1 Example.transformed
  ∧ storage Example.transformed !! 0 = Some 1
  ∧ (∀ i p a ia,
       (i, p, a, ia) ∈ assignments Example.transformed →
       storage Example.transformed !! a = Some ia)
  ∧ NoDup (produced Example.transformed).*1.
Proof.
  assert (Hrun : Private.transform Example.metadata (records Example.expanded)
Example.raw_arrays 4 "Person" 0 Private.initial
= Done 1 Example.transformed)
by (vm_compute; reflexivity).
split; [exact Hrun|].
destruct (transform_memoizes_by_array_identity Example.metadata
(records Example.expanded) Example.raw_arrays 4 "Person" 0
Private.initial 1 Example.transformed Hrun)
    as (_ & H2 & _ & H3 & _ & H5 & _).
  split; [exact H2|]. split; [exact H3|exact H5].
Defined.

Example transform_shares_the_friends_array :
  assignments Example.transformed
  = [(4, "friends", 12, 3); (2, "friends", 11, 5); (0, "friends", 12, 3)]
  ∧ produced Example.transformed = [(0, 1); (12, 3); (11, 5)].
Proof. vm_compute. done. Qed.

(** ** The whole of [build] *)

Section build_facts.
Import Private ObjectMapper.
Variable metadata : MetadataStorage.

Lemma clean_initial : clean initial.
Proof. split; [done|]. intros i p m c Hl. simpl in Hl. by rewrite lookup_empty in Hl. Qed.

Lemma clean_purge_all xs st :
  clean st → clean (foldl (λ s i, purgeInstance i s) st xs).
Proof.
  revert st. induction xs as [|x xs IH]; intros st Hc; simpl; [done|].
  apply IH. by apply clean_purge.
Qed.

(** [build] returns or throws once the fuel exceeds the number of
    visiting keys and the number of raw arrays of the input. *)
Lemma build_fuel fuel b :
  size (key_universe (uids_of (raw_records b)) (keys_of (raw_records b))) < fuel →
  size (arrays_of (raw_records b) (_jsonData b)) < fuel →
  build metadata fuel b ≠ OutOfFuel.
Proof.
  intros Hk Ha. unfold build, build_expand.
  case_decide as Hres.
  - destruct (expand_roots_total (_resource b) (raw_arrays b)
                (uids_of (raw_records b)) (keys_of (raw_records b)) fuel
                (raw_arrays b !!! _jsonData b) (EState (raw_records b) ∅ []))
      as [st' Hst'].
    + apply bounded_initial.
    + simpl. eapply Nat.le_lt_trans; [|exact Hk]. apply subseteq_size. set_solver.
    + rewrite Hst'. simpl.
      assert (transform metadata (records st') (raw_arrays b) fuel
                (_entryType b) (_jsonData b) initial ≠ OutOfFuel) as Hne.
      { unfold transform.
        apply (plainToClassExecutor_fuel _ _ _
                 (arrays_of (raw_records b) (_jsonData b))).
        - eapply expand_roots_closed; [|exact Hst']. apply arrays_of_closed.
        - unfold arrays_of. set_solver.
        - unfold enough_fuel. simpl. rewrite dom_empty_L.
          eapply Nat.le_lt_trans; [|exact Ha]. apply subseteq_size. set_solver. }
      by destruct (transform _ _ _ _ _ _ _).
  - pose proof (transform_fuel metadata (raw_records b) (raw_arrays b) fuel
                  (_entryType b) (_jsonData b) initial Ha) as Hne.
    by destruct (transform _ _ _ _ _ _ _).
Qed.

(** C2 (clean baseline).  When [build] returns, no instance of the
    state -- root, nested element or facet instance -- has a dirty
    property; every collection that the load stored behind a predicate
    accessor has an empty added-set, and so has the collection that
    reading any predicate property returns.  [build] returns or throws
    once the fuel exceeds the two bounds of [build_fuel]. *)
Theorem build_leaves_no_diff fuel b ia st' :
  build metadata fuel b = Done ia st' →
  (∀ i, DiffTracker.diffOf i (diff st') = ∅)
  ∧ (∀ i p m c,
       accessors st' !! (i, p) = Some (PredicateAccessor m (Some c)) →
       PredicateImpl.getDiff c = [])
  ∧ (∀ i p m sv,
       accessors st' !! (i, p) = Some (PredicateAccessor m sv) →
       PredicateImpl.getDiff (predicate_get i m sv st').1 = [])
  ∧ ∀ fuel',
      size (key_universe (uids_of (raw_records b)) (keys_of (raw_records b)))
        < fuel' →
      size (arrays_of (raw_records b) (_jsonData b)) < fuel' →
      build metadata fuel' b ≠ OutOfFuel.
Proof.
  intros Hrun. unfold build in Hrun.
  destruct (build_expand fuel b) as [recs|]; [|done].
  destruct (transform metadata recs (raw_arrays b) fuel (_entryType b)
              (_jsonData b) initial) as [ia0 st| |] eqn:Et; [|done..].
  simpl in Hrun. injection Hrun as <- <-.
  unfold transform in Et.
  apply plainToClassExecutor_spec in Et as (_ & _ & Hclean & _).
  assert (Hc : clean (foldl (λ s i, purgeInstance i s) st
                        (iarrays (heap st) !!! ia0))).
  { apply clean_purge_all, Hclean, clean_initial. }
  destruct Hc as [Hd Hacc]. split_and!; [done|done| |].
  - intros i p m [c|] Hl; [by eapply Hacc|].
    unfold predicate_get, new_array. done.
  - intros fuel'. apply build_fuel.
Qed.
End build_facts.

(** [build] on the worked input returns, and nothing is dirty. *)
Lemma build_leaves_no_diff_witness :
  ObjectMapper.build Example.metadata 4 Example.builder = Done 1 Example.built
  ∧ (∀ i, DiffTracker.diffOf i (diff Example.built) = ∅)
  ∧ ∀ i p m c,
      accessors Example.built !! (i, p) = Some (PredicateAccessor m (Some c)) →
      PredicateImpl.getDiff c = [].
Proof.
  assert (Hrun : ObjectMapper.build Example.metadata 4 Example.builder
                 = Done 1 Example.built)
    by (vm_compute; reflexivity).
  split; [exact Hrun|].
  destruct (build_leaves_no_diff Example.metadata 4 Example.builder 1
              Example.built Hrun) as (H1 & H2 & _).
  split; [exact H1|exact H2].
Defined.

(** ** Predicate decorator *)

Section decorator_claims.
Import Predicate.
Context {PredicateType : Type}.
Variable convert : string → option PredicateType.

Lemma sanitize_error_iff (options : IOptions PredicateType) tg propertyName :
  (∃ msg, sanitizePredicateType _ convert options tg propertyName = Error msg)
  ↔ bad_cardinality _ options
    ∨ (type _ options = None ∧ design_type tg propertyName = None).
Proof.
  unfold sanitizePredicateType, getPropertyPredicateType, bad_cardinality.
  destruct (type _ options) as [[t|ts]|] eqn:Ety.
  - split; [intros [? [=]] | intros [(? & [=] & ?)|[[=] _]]].
  - destruct ts as [|t [|t' ts]]; simpl.
    + split; [|by eauto]. intros _. left. exists []. by split.
    + split; [intros [? [=]] |].
      intros [(ts' & [= <-] & Hlen)|[[=] _]]. by simpl in Hlen.
    + split; [|by eauto]. intros _. left. eexists. split; [done|]. simpl. lia.
  - destruct (design_type tg propertyName) eqn:Ed; simpl.
    + split; [intros [? [=]] | intros [(? & [=] & ?)|[_ [=]]]].
    + split; [|by eauto]. intros _. by right.
Qed.

(** C8 (configuration faults).  Declaring a predicate raises an error
    exactly when the type is given as an array with other than exactly
    one entry, or the target type cannot be resolved: no type is given and
    none can be inferred from the reflected design type.  Every other
    declaration registers its metadata without an error. *)
Theorem predicate_raises_iff (options : IOptions PredicateType) tg propertyName :
  (raises _ convert options tg propertyName
   ↔ bad_cardinality _ options ∨ unresolvable _ convert options tg propertyName)
  ∧ (¬ (bad_cardinality _ options
        ∨ unresolvable _ convert options tg propertyName)
     ↔ ∃ m, Predicate.Predicate _ convert options tg propertyName = Ok m).
Proof.
  assert (Hmain : raises _ convert options tg propertyName
     ↔ bad_cardinality _ options ∨ unresolvable _ convert options tg propertyName).
  { unfold raises, unresolvable, inferable, bad_cardinality, Predicate.Predicate,
      sanitizePredicateType, getPropertyPredicateType.
    destruct (type _ options) as [[t|ts]|] eqn:Ety; simpl.
    - split; [intros [? [=]] | intros [(? & [=] & ?)|[[=] _]]].
    - destruct ts as [|t [|t' ts]]; simpl.
      + split; [|by eauto]. intros _. left. exists []. by split.
      + split; [intros [? [=]] |].
        intros [(ts' & [= <-] & Hlen)|[[=] _]]. by simpl in Hlen.
      + split; [|by eauto]. intros _. left. eexists. split; [done|]. simpl. lia.
    - destruct (design_type tg propertyName) as [n|] eqn:Ed; simpl.
      + destruct (convert (toLowerCase n)) as [t|] eqn:Ec; simpl.
        * split; [intros [? [=]] |].
          intros [(? & [=] & ?)|[_ Hn]]. exfalso. apply Hn. eauto.
        * split; [|by eauto]. intros _. right. split; [done|].
          intros (n' & t & [= <-] & Ht). congruence.
      + split; [|by eauto]. intros _. right. split; [done|].
        intros (n' & t & [=] & _). }
  split; [exact Hmain|].
  rewrite <- Hmain. unfold raises.
  destruct (Predicate.Predicate _ convert options tg propertyName) as [m|msg].
  - split; [by eauto|]. intros _ [? [=]].
  - split; [|intros [? [=]]]. intros Hn. exfalso. apply Hn. eauto.
Qed.
End decorator_claims.

(** ** Schema text *)

(** C9 (schema of the canonical example).  For the registry holding Work
    and then Person, [build] returns exactly the expected text of the test:
    the two type blocks, then the flat lines of Work.name, of the indexed
    name and of Person.hobbies, every line ended by a newline, and no line
    for the node-typed predicate works. *)
Theorem schema_canonical_example :
  SchemaBuilder.build [SchemaBuilder.Work; SchemaBuilder.Person]
  = SchemaBuilder.expectedSchema.
Proof. vm_compute. reflexivity. Qed.

(* ===================================================================== *)
(** * Part III. Further properties of the code                            *)
(* ===================================================================== *)

(** ** The resource index built by [addResourceData] *)

Section resource_data.
Import Builder.
Variable recs : gmap rid rawObj.

Lemma addResourceData_JArr ds res :
  addResourceData recs (JArr ds) res = addResourceData_each recs ds res.
Proof.
  simpl. revert res. induction ds as [|d ds IH]; intros res; simpl; [done|].
  destruct (addResourceData recs d res) as [res' [e|]]; [done|]. apply IH.
Qed.

Lemma leaves_JArr_cons d ds : leaves (JArr (d :: ds)) = leaves d ++ leaves (JArr ds).
Proof. done. Qed.

(** Induction over the nesting of arrays. *)
Lemma json_nested_ind (P : json → Prop) :
  (∀ r, P (JRec r)) → (∀ p, P (JPrim p)) → P JNull →
  (∀ ds, Forall P ds → P (JArr ds)) →
  ∀ d, P d.
Proof.
  intros Hr Hp Hn Ha. fix IH 1. intros [r|ds|p|]; [apply Hr| |apply Hp|apply Hn].
  apply Ha. induction ds as [|d ds IHds]; constructor; [apply IH|apply IHds].
Qed.

Lemma addResourceData_each_app ds1 ds2 res :
  addResourceData_each recs (ds1 ++ ds2) res
  = match addResourceData_each recs ds1 res with
    | (res', None) => addResourceData_each recs ds2 res'
    | (res', Some e) => (res', Some e)
    end.
Proof.
  revert res. induction ds1 as [|d ds1 IH]; intros res; simpl; [done|].
  destruct (addResourceData recs d res) as [res' [e|]]; [done|]. apply IH.
Qed.

(** Nested arrays are walked as if they were flattened. *)
Lemma addResourceData_flat data :
  ∀ res, addResourceData recs data res = addResourceData_each recs (leaves data) res.
Proof.
  induction data as [r|p| |ds IH] using json_nested_ind; intros res.
  - simpl. by destruct (uid_truthy recs r).
  - done.
  - done.
  - rewrite addResourceData_JArr. revert res.
    induction IH as [|d ds Hd Hds IHds]; intros res; [done|].
    rewrite leaves_JArr_cons, addResourceData_each_app. cbn [addResourceData_each].
    rewrite Hd. destruct (addResourceData_each recs (leaves d) res) as [res' [e|]]; [done|].
    apply IHds.
Qed.

Lemma leaves_not_array data : Forall (λ d, ∀ ds, d ≠ JArr ds) (leaves data).
Proof.
  induction data as [r|p| |ds IH] using json_nested_ind;
    try (by repeat constructor).
  induction IH as [|d ds Hd Hds IHds]; [constructor|].
  rewrite leaves_JArr_cons. by apply Forall_app.
Qed.

(** One leaf: its entry is set, or the walk throws and the index stays. *)
Lemma addResourceData_leaf d res :
  (∀ ds, d ≠ JArr ds) →
  match entry_of recs d with
  | Some e => addResourceData recs d res = (<[e.1 := e.2]> res, None)
  | None => ∃ msg, addResourceData recs d res = (res, Some msg)
  end.
Proof.
  intros Hd. destruct d as [r|ds|p|]; simpl; [|by destruct (Hd ds)|by eauto..].
  destruct (uid_truthy recs r); simpl; by eauto.
Qed.

Lemma addResourceData_each_leaves ls res :
  Forall (λ d, ∀ ds, d ≠ JArr ds) ls →
  (addResourceData_each recs ls res).1
  = foldl (λ m e, <[e.1 := e.2]> m) res (entries_until_error recs ls)
  ∧ ((addResourceData_each recs ls res).2 = None
     ↔ Forall (λ d, is_Some (entry_of recs d)) ls).
Proof.
  intros Hls. revert res. induction Hls as [|d ls Hd Hls IH]; intros res; simpl.
  - split; [done|]. split; [constructor|done].
  - pose proof (addResourceData_leaf d res Hd) as Hleaf.
    destruct (entry_of recs d) as [e|] eqn:Ee.
    + rewrite Hleaf. simpl. destruct (IH (<[e.1:=e.2]> res)) as [H1 H2].
      split; [done|]. rewrite H2. split.
      * intros H. constructor; [by rewrite Ee; eauto|done].
      * intros H. by inversion H.
    + destruct Hleaf as [msg ->]. simpl. split; [done|]. split; [done|].
      intros H. inversion H as [|? ? [? Hs] _]; subst. congruence.
Qed.

Lemma foldl_set_lookup_inv (es : list (string * rid)) (res : gmap string rid) u r :
  foldl (λ m e, <[e.1 := e.2]> m) res es !! u = Some r →
  res !! u = Some r ∨ (u, r) ∈ es.
Proof.
  revert res. induction es as [|[u0 r0] es IH]; intros res; simpl; [by left|].
  intros [H|H]%IH.
  - destruct (decide (u0 = u)) as [->|Hne].
    + rewrite lookup_insert_eq in H. simplify_eq. right. apply elem_of_cons. by left.
    + rewrite lookup_insert_ne in H by done. by left.
  - right. apply elem_of_cons. by right.
Qed.

Lemma foldl_set_lookup_notin (es : list (string * rid)) (res : gmap string rid) u :
  u ∉ es.*1 → foldl (λ m e, <[e.1 := e.2]> m) res es !! u = res !! u.
Proof.
  revert res. induction es as [|[u0 r0] es IH]; intros res; simpl; [done|].
  intros [Hne Hn]%not_elem_of_cons. rewrite IH by done.
  by rewrite lookup_insert_ne.
Qed.

Lemma foldl_set_lookup_last (l1 l2 : list (string * rid)) (res : gmap string rid) u r :
  u ∉ l2.*1 →
  foldl (λ m e, <[e.1 := e.2]> m) res (l1 ++ (u, r) :: l2) !! u = Some r.
Proof.
  intros Hn. rewrite foldl_app. simpl.
  rewrite foldl_set_lookup_notin by done. apply lookup_insert_eq.
Qed.

Lemma entries_until_error_elem ls u r :
  (u, r) ∈ entries_until_error recs ls →
  JRec r ∈ ls ∧ uid (recs !!! r) = Some u ∧ u ≠ "".
Proof.
  induction ls as [|d ls IH]; simpl; [by intros ?%elem_of_nil|].
  destruct (entry_of recs d) as [e|] eqn:Ee; [|by intros ?%elem_of_nil].
  intros [<-|Hin]%elem_of_cons.
  - destruct d as [r0| | |]; simpl in Ee; try done.
    unfold uid_truthy in Ee. destruct (uid (recs !!! r0)) as [u0|] eqn:Eu; [|done].
    destruct (String.eqb u0 "") eqn:Eb; [done|]. simpl in Ee. simplify_eq.
    split; [apply elem_of_cons; by left|]. split; [done|].
    intros ->. done.
  - destruct (IH Hin) as (H1 & H2 & H3). split; [apply elem_of_cons; by right|done].
Qed.

(** X1 (when [addResourceData] throws).  The call returns without error
    exactly when every value it meets that is not an array is a record
    with a non-empty uid; nested arrays are walked as if flattened.  A
    record without uid, a primitive or null anywhere in the data makes it
    throw. *)
Theorem addResourceData_returns_iff data res :
  (addResourceData recs data res).2 = None
  ↔ Forall (λ d, ∃ r u, d = JRec r ∧ uid (recs !!! r) = Some u ∧ u ≠ "")
      (leaves data).
Proof.
  rewrite addResourceData_flat.
  destruct (addResourceData_each_leaves (leaves data) res (leaves_not_array data))
    as [_ ->].
  apply Forall_iff. intros d. split.
  - intros [[u r] He]. destruct d as [r0| | |]; simpl in He; try done.
    unfold uid_truthy in He. destruct (uid (recs !!! r0)) as [u0|] eqn:Eu; [|done].
    destruct (String.eqb u0 "") eqn:Eb; [done|].
    exists r0, u0. split_and!; [done..|]. intros ->. done.
  - intros (r & u & -> & Hu & Hne). simpl. unfold uid_truthy. rewrite Hu.
    destruct (String.eqb u "") eqn:Eb; [|by eauto].
    apply String.eqb_eq in Eb. done.
Qed.

Lemma addResourceData_entries data res :
  (addResourceData recs data res).1
  = foldl (λ m e, <[e.1 := e.2]> m) res (entries_until_error recs (leaves data)).
Proof.
  rewrite addResourceData_flat.
  by destruct (addResourceData_each_leaves (leaves data) res (leaves_not_array data))
    as [-> _].
Qed.

(** X2 (what the index holds afterwards).  Whether the call returns or
    throws, the index is the old one with the entries of the records met
    before the first offending value set in walk order.  So a uid none of
    them carries keeps its old entry, and of several records with one uid
    the last one met wins. *)
Theorem addResourceData_index data res :
  let es := entries_until_error recs (leaves data) in
  (addResourceData recs data res).1 = foldl (λ m e, <[e.1 := e.2]> m) res es
  ∧ (∀ u, u ∉ es.*1 → (addResourceData recs data res).1 !! u = res !! u)
  ∧ (∀ l1 l2 u r,
       es = l1 ++ (u, r) :: l2 → u ∉ l2.*1 →
       (addResourceData recs data res).1 !! u = Some r).
Proof.
  cbn zeta. rewrite addResourceData_entries.
  split_and!; [done| |].
  - intros u. apply foldl_set_lookup_notin.
  - intros l1 l2 u r -> Hn. by apply foldl_set_lookup_last.
Qed.

(** X3 (the index stays consistent and flat).  If every entry of the
    index maps a uid to a record that carries that uid, the same holds
    after [addResourceData], returned or thrown.  Every entry is an old one
    or a record that is itself an element of the (nested) arrays of the
    data: a record that only occurs inside a field of another record is
    not indexed. *)
Theorem addResourceData_consistent data res :
  consistent recs res →
  consistent recs (addResourceData recs data res).1
  ∧ ∀ u r,
      (addResourceData recs data res).1 !! u = Some r →
      res !! u = Some r ∨ (JRec r ∈ leaves data ∧ uid (recs !!! r) = Some u).
Proof.
  intros Hc.
  assert (Hinv : ∀ u r,
            (addResourceData recs data res).1 !! u = Some r →
            res !! u = Some r ∨ (JRec r ∈ leaves data ∧ uid (recs !!! r) = Some u)).
  { intros u r. rewrite addResourceData_entries.
    intros [H|H]%foldl_set_lookup_inv; [by left|right].
    apply entries_until_error_elem in H as (H1 & H2 & _). by split. }
  split; [|done].
  intros u r [H|[_ H]]%Hinv; [by apply Hc|done].
Qed.
End resource_data.

(** The resource data of the worked input give the index of the worked
    input, which is consistent. *)
Lemma addResourceData_consistent_witness :
  Builder.consistent Example.raw_records ∅
  ∧ (Builder.addResourceData Example.raw_records example_resource_data ∅).1
    = Example.resource
  ∧ Builder.consistent Example.raw_records
      (Builder.addResourceData Example.raw_records example_resource_data ∅).1.
Proof.
  assert (H0 : Builder.consistent Example.raw_records ∅).
  { intros u r Hl. by rewrite lookup_empty in Hl. }
  split; [exact H0|]. split; [vm_compute; reflexivity|].
  exact (proj1 (addResourceData_consistent Example.raw_records
                  example_resource_data ∅ H0)).
Defined.

(** ** More on the expand phase *)

Section fields_again.
Context {A : Type}.
Implicit Types (fs : list (string * A)) (k : string) (v : A).

Lemma field_set_same k v fs : field_get k fs = Some v → field_set k v fs = fs.
Proof.
  induction fs as [|[k0 w] fs IH]; simpl; [done|].
  destruct (decide (k0 = k)) as [->|Hne]; [by intros [= ->]|].
  intros H. by rewrite IH.
Qed.

Lemma foldl_set_same (src : list (string * A)) fs :
  (∀ k v, (k, v) ∈ src → field_get k fs = Some v) →
  foldl (λ acc kv, field_set kv.1 kv.2 acc) fs src = fs.
Proof.
  induction src as [|[k v] src IH]; intros H; simpl; [done|].
  rewrite field_set_same by (apply H, elem_of_cons; by left).
  apply IH. intros k' v' Hin. apply H, elem_of_cons. by right.
Qed.

Lemma field_get_NoDup_elem k v fs :
  NoDup (field_keys fs) → (k, v) ∈ fs → field_get k fs = Some v.
Proof.
  unfold field_keys. induction fs as [|[k0 w] fs IH]; simpl; [by intros _ ?%elem_of_nil|].
  intros [Hn Hnd]%NoDup_cons [Heq|Hin]%elem_of_cons.
  - simplify_eq. by rewrite decide_True.
  - rewrite decide_False; [by apply IH|].
    intros ->. apply Hn. apply list_elem_of_fmap. by exists (k, v).
Qed.
End fields_again.

(** Assigning the same source twice is assigning it once. *)
Lemma object_assign_idempotent (t s : rawObj) :
  NoDup (field_keys (fields s)) →
  object_assign (object_assign t s) s = object_assign t s.
Proof.
  intros Hnd. unfold object_assign. simpl. f_equal.
  - by destruct (uid s).
  - apply foldl_set_same. intros k v Hin.
    rewrite field_get_assign by done. by rewrite (field_get_NoDup_elem k v).
Qed.

Lemma object_assign_self (t : rawObj) :
  NoDup (field_keys (fields t)) → object_assign t t = t.
Proof.
  intros Hnd. destruct t as [u fs]. unfold object_assign. simpl in *. f_equal.
  - by destruct u.
  - apply foldl_set_same. intros k v. by apply field_get_NoDup_elem.
Qed.

Section expand_more.
Import Expand.
Variable resource : gmap string rid.
Variable arrays : gmap aid (list elem).

(** [expand_preserves] with the walk's guard on the key at hand. *)
Section preserved_keyed.
Variable I : estate → Prop.
Hypothesis Hmerge : ∀ r st, I st → I (merge resource r st).
Hypothesis Hmark :
  ∀ p k c st, I st → k ≠ "dgraph.type" → visitingKey p k c ∉ visited st →
              I (mark p k c st).

Lemma expand_preserves_keyed fuel :
  ∀ source st st',
    I st → expand resource arrays fuel source st = Some st' → I st'.
Proof.
  induction fuel as [|fuel IH]; intros source st st' Hst; [done|].
  simpl. destruct source as [r|p]; simpl; [|by intros [= <-]].
  apply forEachO_preserves; [|by apply Hmerge].
  intros s key s' _ Hs. unfold visit_key.
  case_decide as Hkey; [by intros [= <-]|].
  destruct (field_get key (fields (records s !!! r))) as [[| | |a]|];
    try by intros [= <-].
  revert Hs. apply forEachO_preserves.
  intros s0 node s0' _ Hs0. unfold visit_node.
  case_decide as Hv; [by intros [= <-]|].
  apply IH. by apply Hmark.
Qed.
End preserved_keyed.

(** X4 (uids are stable under a consistent index).  When every entry of
    the resource index maps a uid to a record that carries it -- as
    [addResourceData] builds it -- [expand] changes the uid of no record,
    and the index is still consistent afterwards. *)
Theorem expand_keeps_uids fuel source st st' :
  Builder.consistent (records st) resource →
  expand resource arrays fuel source st = Some st' →
  (∀ r, uid (records st' !!! r) = uid (records st !!! r))
  ∧ Builder.consistent (records st') resource.
Proof.
  intros Hc Hrun.
  assert (Huid : ∀ r, uid (records st' !!! r) = uid (records st !!! r)).
  { revert Hrun.
    apply (expand_preserves resource arrays
             (λ s, ∀ r, uid (records s !!! r) = uid (records st !!! r))); [| |done].
    - intros r0 s Hs r. unfold merge.
      destruct (uid (records s !!! r0)) as [u|] eqn:Eu; [|apply Hs].
      destruct (resource !! u) as [r'|] eqn:Er; [|apply Hs]. simpl.
      destruct (decide (r0 = r)) as [<-|Hne].
      + rewrite lookup_total_insert_eq. unfold object_assign. simpl.
        rewrite (Hs r'), (Hc u r' Er). by rewrite <- (Hs r0).
      + rewrite lookup_total_insert_ne by done. apply Hs.
    - intros p k c s Hs _. done. }
  split; [done|]. intros u r Hr. rewrite Huid. by apply Hc.
Qed.

(** X5 (the type tag is never walked).  No edge that [expand] descends
    into goes through the field dgraph.type, whatever that field holds. *)
Theorem expand_skips_type_tag fuel source st st' :
  expand resource arrays fuel source st = Some st' →
  ∀ e, e ∈ drop (length (descents st)) (descents st') → e.1.2 ≠ "dgraph.type".
Proof.
  intros Hrun.
  cut (∃ new, descents st' = descents st ++ new
              ∧ ∀ e, e ∈ new → e.1.2 ≠ "dgraph.type").
  { intros (new & -> & Hnew). by rewrite drop_app_length. }
  revert Hrun.
  apply (expand_preserves_keyed
           (λ s, ∃ new, descents s = descents st ++ new
                        ∧ ∀ e, e ∈ new → e.1.2 ≠ "dgraph.type")).
  - intros r s (new & Hd & Hn). exists new. by rewrite merge_descents.
  - intros p k c s (new & Hd & Hn) Hk _. exists (new ++ [(p, k, c)]). simpl.
    split; [by rewrite Hd, app_assoc|].
    intros e [He|He]%elem_of_app; [by apply Hn|].
    apply list_elem_of_singleton in He as ->. done.
  - exists []. split; [by rewrite app_nil_r|]. by intros e ?%elem_of_nil.
Qed.

(** X6 (the merge step is idempotent).  Under a consistent index, and
    with an indexed record whose keys are distinct (as the keys of an
    object are), merging a record a second time changes nothing: a record
    reached again through another edge is left as the first visit made
    it. *)
Theorem merge_idempotent r st :
  Builder.consistent (records st) resource →
  (∀ u r', uid (records st !!! r) = Some u → resource !! u = Some r' →
           NoDup (field_keys (fields (records st !!! r')))) →
  merge resource r (merge resource r st) = merge resource r st.
Proof.
  intros Hc Hnd.
  destruct (uid (records st !!! r)) as [u|] eqn:Eu.
  2:{ assert (Hm : misses resource (records st !!! r))
        by (unfold misses; by rewrite Eu).
      rewrite (merge_misses resource r st Hm).
      by rewrite (merge_misses resource r st Hm). }
  destruct (resource !! u) as [r'|] eqn:Er.
  2:{ assert (Hm : misses resource (records st !!! r))
        by (unfold misses; by rewrite Eu).
      rewrite (merge_misses resource r st Hm).
      by rewrite (merge_misses resource r st Hm). }
  pose proof (Hc u r' Er) as Hu'. pose proof (Hnd u r' eq_refl Er) as Hnd'.
  set (m := object_assign (records st !!! r) (records st !!! r')).
  assert (Hm : merge resource r st = set_records (<[r := m]>) st).
  { unfold merge. by rewrite Eu, Er. }
  assert (Hum : uid m = Some u) by (unfold m, object_assign; simpl; by rewrite Hu').
  rewrite Hm. unfold merge. simpl. rewrite lookup_total_insert_eq, Hum, Er.
  unfold set_records. simpl. f_equal.
  destruct (decide (r = r')) as [<-|Hne].
  - rewrite lookup_total_insert_eq.
    assert (m = records st !!! r) as -> by (by apply object_assign_self).
    rewrite object_assign_self by done. by rewrite insert_insert_eq.
  - rewrite lookup_total_insert_ne by done. unfold m.
    rewrite object_assign_idempotent by done. by rewrite insert_insert_eq.
Qed.
End expand_more.

Lemma example_index_consistent :
  Builder.consistent Example.raw_records Example.resource.
Proof.
  intros u r H. unfold Example.resource in H.
  apply lookup_insert_Some in H as [[<- <-]|[_ H]]; [by vm_compute|].
  apply lookup_insert_Some in H as [[<- <-]|[_ H]]; [by vm_compute|].
  by rewrite lookup_empty in H.
Qed.

(** In the worked input the root keeps its uid a through the merge. *)
Lemma expand_keeps_uids_witness :
  Expand.expand Example.resource Example.raw_arrays 3 (ERec 1) Example.start
  = Some Example.expanded
  ∧ uid (records Example.expanded !!! 1) = uid (Example.raw_records !!! 1).
Proof.
  assert (Hrun : Expand.expand Example.resource Example.raw_arrays 3 (ERec 1)
                   Example.start = Some Example.expanded)
    by (vm_compute; reflexivity).
  split; [exact Hrun|].
  exact (proj1 (expand_keeps_uids Example.resource Example.raw_arrays 3 (ERec 1)
                  Example.start Example.expanded example_index_consistent Hrun) 1).
Defined.

Lemma expand_skips_type_tag_witness :
  Expand.expand Example.resource Example.raw_arrays 3 (ERec 1) Example.start
  = Some Example.expanded
  ∧ ∀ e, e ∈ descents Example.expanded → e.1.2 ≠ "dgraph.type".
Proof.
  assert (Hrun : Expand.expand Example.resource Example.raw_arrays 3 (ERec 1)
                   Example.start = Some Example.expanded)
    by (vm_compute; reflexivity).
  split; [exact Hrun|].
  exact (expand_skips_type_tag Example.resource Example.raw_arrays 3 (ERec 1)
           Example.start Example.expanded Hrun).
Defined.

Lemma merge_idempotent_witness :
  Expand.merge Example.resource 1 (Expand.merge Example.resource 1 Example.start)
  = Expand.merge Example.resource 1 Example.start.
Proof.
  apply (merge_idempotent Example.resource 1 Example.start example_index_consistent).
  intros u r' Hu Hr'.
  assert (u = "a") as -> by (vm_compute in Hu; congruence).
  assert (r' = 5) as -> by (vm_compute in Hr'; congruence).
  apply (bool_decide_unpack (NoDup _)). vm_compute. exact I.
Defined.

(** ** More on predicate collections *)

Section collection_more.
Import PredicateImpl.
Implicit Types (c : PredicateImpl.t) (w : world) (x y : obj).

Lemma js_set_add_iff x y s : y ∈ js_set_add x s ↔ y = x ∨ y ∈ s.
Proof.
  unfold js_set_add. case_decide.
  - split; [by right|]. by intros [->|?].
  - rewrite elem_of_app, list_elem_of_singleton. tauto.
Qed.

Lemma js_set_add_NoDup x s : NoDup s → NoDup (js_set_add x s).
Proof.
  intros Hnd. unfold js_set_add. case_decide; [done|].
  apply NoDup_app. split_and!; [done| |apply NoDup_singleton].
  intros y Hy ->%list_elem_of_singleton. done.
Qed.

Lemma add_getDiff c x w : getDiff (add c x w).1 = js_set_add x (getDiff c).
Proof. unfold add, getDiff. by destruct (_facet c). Qed.

(** X7 (a run of adds).  After [c.add(x1)...add(xn)] the backing array has
    grown by exactly these elements in call order, repeats included, while
    the added-set holds every element once: it has no repeats if it had
    none, and its members are the old ones and the elements added. *)
Theorem add_all_array_and_added_set c xs w :
  get (add_all c xs w).1 (add_all c xs w).2 = get c w ++ (IInst <$> xs)
  ∧ (NoDup (getDiff c) → NoDup (getDiff (add_all c xs w).1))
  ∧ (∀ y, y ∈ getDiff (add_all c xs w).1 ↔ y ∈ getDiff c ∨ y ∈ xs)
  ∧ _data (add_all c xs w).1 = _data c.
Proof.
  unfold add_all. revert c w. induction xs as [|x xs IH]; intros c w; simpl.
  - rewrite app_nil_r. split_and!; try done. intros y. split; [by left|].
    by intros [?|?%elem_of_nil].
  - pose proof (add_get c x w) as G1. pose proof (add_getDiff c x w) as G2.
    pose proof (add_data c x w) as G3.
    destruct (add c x w) as [c1 w1]. simpl in G1, G2, G3.
    destruct (IH c1 w1) as (H1 & H2 & H3 & H4).
    split_and!.
    + rewrite H1, G1, <- app_assoc. done.
    + intros Hnd. apply H2. rewrite G2. by apply js_set_add_NoDup.
    + intros y. rewrite H3, G2, js_set_add_iff, elem_of_cons. tauto.
    + by rewrite H4, G3.
Qed.

(** X8 (collections over one array).  A collection holds its backing
    array by reference: an element added through one collection shows in
    [get()] of every collection over the same array, whoever its owner is,
    and in no collection over another array. *)
Theorem add_shows_through_shared_array c1 c2 x w :
  (_data c2 = _data c1 → get c2 (add c1 x w).2 = get c2 w ++ [IInst x])
  ∧ (_data c2 ≠ _data c1 → get c2 (add c1 x w).2 = get c2 w).
Proof.
  unfold get, add. split; intros Hd.
  - rewrite Hd. destruct (_facet c1); simpl; by rewrite lookup_total_insert_eq.
  - destruct (_facet c1); simpl; by rewrite lookup_total_insert_ne.
Qed.
End collection_more.

(** ** The predicate accessor pair *)

Section accessor_pair.
Import Private.
Variable metadata : MetadataStorage.

(** X9 (the getter).  Reading a predicate property whose accessor pair
    holds no collection yet creates an empty collection with an empty
    added-set, bound to the instance and the property name, and stores it;
    reading again returns that same collection and changes nothing. *)
Theorem predicate_get_creates_once owner pred st :
  let c := (predicate_get owner pred None st).1 in
  let st1 := (predicate_get owner pred None st).2 in
  accessors st1 !! (owner, pred_propertyName pred)
  = Some (PredicateAccessor pred (Some c))
  ∧ PredicateImpl.get c (heap st1) = []
  ∧ PredicateImpl.getDiff c = []
  ∧ PredicateImpl._parent c = owner
  ∧ PredicateImpl._namespace c = pred_propertyName pred
  ∧ predicate_get owner pred (Some c) st1 = (c, st1)
  ∧ storage st1 = storage st ∧ diff st1 = diff st.
Proof.
  cbn zeta. unfold predicate_get, new_array. simpl.
  split_and!; try done.
  - apply lookup_insert_eq.
  - unfold PredicateImpl.get. simpl. apply lookup_total_insert_eq.
Qed.

(** X10 (what the setter stores).  When the setter returns, the accessor
    pair holds: for an array, a new collection over that very array, owned
    by the instance, with an empty added-set; for a nullish value, a new
    collection over a new empty array; for a collection, that collection
    itself, with the added-set, the owner and the scope key it came
    with. *)
Theorem predicate_set_stores owner pred value st u st' :
  predicate_set metadata owner pred value st = Done u st' →
  ∃ c,
    accessors st' !! (owner, pred_propertyName pred)
    = Some (PredicateAccessor pred (Some c))
    ∧ match value with
      | AssignArray a => c = PredicateImpl.new (pred_propertyName pred) owner a
      | AssignCollection c0 => c = c0
      | AssignNullish =>
          c = PredicateImpl.new (pred_propertyName pred) owner (next st)
          ∧ PredicateImpl.get c (heap st') = []
      end.
Proof.
  unfold predicate_set. destruct value as [a|c0|].
  - match goal with
    | |- bind (forEach ?b ?l st) _ = _ → _ =>
        destruct (forEach b l st) as [u2 st2| |]; [|done..]
    end.
    simpl. intros [= _ <-]. eexists. split; [apply lookup_insert_eq|done].
  - match goal with
    | |- bind (forEach ?b ?l st) _ = _ → _ =>
        destruct (forEach b l st) as [u2 st2| |]; [|done..]
    end.
    simpl. intros [= _ <-]. eexists. split; [apply lookup_insert_eq|done].
  - unfold new_array. simpl. unfold PredicateImpl.get. simpl.
    rewrite lookup_total_insert_eq. simpl. intros [= _ <-].
    eexists. split; [apply lookup_insert_eq|]. simpl.
    split; [done|]. apply lookup_total_insert_eq.
Qed.

(** *** Facet extraction *)

Lemma field_get_delete_eq {A} k (fs : list (string * A)) :
  field_get k (field_delete k fs) = None.
Proof.
  induction fs as [|[k0 w] fs IH]; simpl; [done|].
  destruct (decide (k0 = k)) as [->|Hne]; [done|]. simpl. by rewrite decide_False.
Qed.

Lemma field_get_delete_ne {A} k k' (fs : list (string * A)) :
  k ≠ k' → field_get k' (field_delete k fs) = field_get k' fs.
Proof.
  intros Hne. induction fs as [|[k0 w] fs IH]; simpl; [done|].
  destruct (decide (k0 = k)) as [->|Hne0]; simpl.
  - by rewrite decide_False.
  - by rewrite IH.
Qed.

Lemma field_delete_absent {A} k (fs : list (string * A)) :
  field_get k fs = None → field_delete k fs = fs.
Proof.
  induction fs as [|[k0 w] fs IH]; simpl; [done|].
  destruct (decide (k0 = k)) as [->|Hne]; [done|]. intros H. by rewrite IH.
Qed.

Lemma append_inj_r (p s1 s2 : string) : p +:+ s1 = p +:+ s2 → s1 = s2.
Proof. induction p as [|c p IH]; simpl; [done|]. intros [= H]. by apply IH. Qed.

(** The namespaced name of a facet field. *)
Lemma facet_key_inj name f1 f2 :
  name +:+ "|" +:+ f1 = name +:+ "|" +:+ f2 → f1 = f2.
Proof. intros H%append_inj_r. by apply (append_inj_r "|") in H. Qed.

Lemma move_facet_fields_spec name fms :
  ∀ acc vf,
    let out := foldl (λ '(acc, vf) f,
                        let facetPropertyName := name +:+ "|" +:+ facet_propertyName f in
                        (field_set (facet_propertyName f)
                           (default VUndefined (field_get facetPropertyName vf)) acc,
                         field_delete facetPropertyName vf))
                     (acc, vf) fms in
    (∀ f, f ∈ fms → field_get (name +:+ "|" +:+ facet_propertyName f) out.2 = None)
    ∧ (∀ k, (∀ f, f ∈ fms → k ≠ name +:+ "|" +:+ facet_propertyName f) →
            field_get k out.2 = field_get k vf)
    ∧ (∀ p, p ∉ facet_propertyName <$> fms → field_get p out.1 = field_get p acc)
    ∧ (NoDup (facet_propertyName <$> fms) →
       ∀ f, f ∈ fms →
            field_get (facet_propertyName f) out.1
            = Some (default VUndefined
                      (field_get (name +:+ "|" +:+ facet_propertyName f) vf))).
Proof.
  induction fms as [|f0 fms IH]; intros acc vf; cbn zeta.
  - simpl. split_and!; [by intros f ?%elem_of_nil|done|done|].
    by intros _ f ?%elem_of_nil.
  - cbn [foldl].
    set (k0 := name +:+ "|" +:+ facet_propertyName f0).
    destruct (IH (field_set (facet_propertyName f0)
                    (default VUndefined (field_get k0 vf)) acc)
                 (field_delete k0 vf)) as (H1 & H2 & H3 & H4).
    cbn zeta in *. split_and!.
    + intros f [->|Hf]%elem_of_cons; [|by apply H1].
      destruct (decide (facet_propertyName f0 ∈ facet_propertyName <$> fms))
        as [(f' & Hf' & Hin')%list_elem_of_fmap|Hn].
      * pose proof (H1 f' Hin') as G. rewrite <- Hf' in G. exact G.
      * rewrite H2; [apply field_get_delete_eq|].
        intros f Hf Heq. apply facet_key_inj in Heq. apply Hn.
        rewrite Heq. by apply list_elem_of_fmap_2.
    + intros k Hk. rewrite H2.
      * apply field_get_delete_ne. intros <-. eapply Hk; [|done].
        apply elem_of_cons. by left.
      * intros f Hf. apply Hk, elem_of_cons. by right.
    + intros p [Hne Hp]%not_elem_of_cons. rewrite H3 by done.
      by apply field_get_set_ne.
    + intros [Hn Hnd]%NoDup_cons f [->|Hf]%elem_of_cons.
      * rewrite H3 by done. apply field_get_set_eq.
      * rewrite H4 by done. f_equal. f_equal.
        apply field_get_delete_ne. intros Heq%facet_key_inj.
        apply Hn. rewrite Heq. by apply list_elem_of_fmap_2.
Qed.

(** X11 (facet extraction).  When the setter has set up the facet of an
    element that is an allocated instance: none of the namespaced facet
    fields is left on the element and its other fields and its class are
    as before; the facet store binds, under the property name and the
    owner, a new instance of the facet class to the element; with distinct
    facet property names, each facet field holds what the element held
    under the namespaced name, undefined if it held nothing; the element
    and the facet instance have no dirty property. *)
Theorem setup_facet_moves_fields owner pred fms j st u st' :
  j < next st →
  setup_facet owner pred fms (IInst j) st = Done u st' →
  let before := instances st !!! j in
  let after := instances st' !!! j in
  let key f := pred_name pred +:+ "|" +:+ facet_propertyName f in
  (∀ f, f ∈ fms → field_get (key f) (i_fields after) = None)
  ∧ (∀ k, (∀ f, f ∈ fms → k ≠ key f) →
          field_get k (i_fields after) = field_get k (i_fields before))
  ∧ i_class after = i_class before
  ∧ FacetStorage.get (pred_propertyName pred) owner j (facetStorage (heap st'))
    = Some (next st)
  ∧ i_class (instances st' !!! next st) = default "Object" (pred_facet pred)
  ∧ (NoDup (facet_propertyName <$> fms) →
     ∀ f, f ∈ fms →
          field_get (facet_propertyName f) (i_fields (instances st' !!! next st))
          = Some (default VUndefined (field_get (key f) (i_fields before))))
  ∧ DiffTracker.diffOf j (diff st') = ∅
  ∧ DiffTracker.diffOf (next st) (diff st') = ∅.
Proof.
  intros Hj. unfold setup_facet.
  pose proof (move_facet_fields_spec (pred_name pred) fms []
                (i_fields (instances st !!! j))) as Hspec.
  cbn zeta in Hspec. unfold move_facet_fields.
  destruct (foldl _ _ fms) as [plain v_fields]. simpl in Hspec.
  destruct Hspec as (S1 & S2 & S3 & S4).
  unfold plainToClass_object.
  match goal with
  | |- bind (forEach ?b fms ?s3) _ = _ → _ =>
      set (st3 := s3); destruct (forEach b fms st3) as [u4 st4| |] eqn:E4; [|done..]
  end.
  cbn [bind]. intros [= _ <-].
  assert (Hinst : instances st4 = instances st3).
  { revert E4. apply (forEach_preserves (λ s, instances s = instances st3)); [|done].
    intros f s u0 s' _ Hs [= _ <-]. done. }
  destruct (forEach_trackProperty_step 0 (next st) facet_propertyName (λ _, None)
              fms st3 u4 st4) as (_ & _ & _ & Hheap & Hdiff); [lia|exact E4|].
  cbn zeta. simpl. rewrite Hinst, Hheap. subst st3. simpl.
  rewrite lookup_total_insert_ne by lia.
  rewrite !lookup_total_insert_eq. simpl.
  split_and!; try done.
  - unfold FacetStorage.get, FacetStorage.attach. apply lookup_insert_eq.
  - unfold DiffTracker.diffOf, DiffTracker.purgeInstance. by rewrite lookup_delete_eq.
  - unfold DiffTracker.diffOf, DiffTracker.purgeInstance.
    rewrite lookup_delete_ne by lia. by rewrite lookup_delete_eq.
Qed.

Lemma move_facet_fields_absent name fms :
  ∀ acc vf,
    (∀ f, f ∈ fms → field_get (name +:+ "|" +:+ facet_propertyName f) vf = None) →
    foldl (λ '(acc, vf) f,
             let facetPropertyName := name +:+ "|" +:+ facet_propertyName f in
             (field_set (facet_propertyName f)
                (default VUndefined (field_get facetPropertyName vf)) acc,
              field_delete facetPropertyName vf))
          (acc, vf) fms
    = (foldl (λ acc f, field_set (facet_propertyName f) VUndefined acc) acc fms, vf).
Proof.
  induction fms as [|f0 fms IH]; intros acc vf Hnone; [done|].
  cbn [foldl].
  rewrite (Hnone f0) by (apply elem_of_cons; by left). simpl.
  rewrite field_delete_absent by (apply Hnone, elem_of_cons; by left).
  apply IH. intros f Hf. apply Hnone, elem_of_cons. by right.
Qed.

Lemma set_undefined_keeps fms :
  ∀ (acc : list (string * value)) p,
    field_get p acc = Some VUndefined →
    field_get p (foldl (λ acc f, field_set (facet_propertyName f) VUndefined acc)
                   acc fms) = Some VUndefined.
Proof.
  induction fms as [|f0 fms IH]; intros acc p Hp; [done|]. simpl. apply IH.
  destruct (decide (facet_propertyName f0 = p)) as [<-|Hne].
  - apply field_get_set_eq.
  - by rewrite field_get_set_ne.
Qed.

Lemma set_undefined_elem fms :
  ∀ (acc : list (string * value)) f,
    f ∈ fms →
    field_get (facet_propertyName f)
      (foldl (λ acc f, field_set (facet_propertyName f) VUndefined acc) acc fms)
    = Some VUndefined.
Proof.
  induction fms as [|f0 fms IH]; intros acc f Hf; [by apply elem_of_nil in Hf|].
  simpl. apply elem_of_cons in Hf as [->|Hf]; [|by apply IH].
  apply set_undefined_keeps, field_get_set_eq.
Qed.

(** X12 (facet fields are moved once).  Extracting the facet fields from
    fields they were already extracted from changes no field and yields
    undefined for every facet field: an element that is set up for a second
    edge (it sits in an array shared by two owners) brings no facet data
    to it. *)
Theorem move_facet_fields_twice name fms vf :
  let once := move_facet_fields name fms vf in
  let twice := move_facet_fields name fms once.2 in
  twice.2 = once.2
  ∧ ∀ f, f ∈ fms → field_get (facet_propertyName f) twice.1 = Some VUndefined.
Proof.
  cbn zeta.
  destruct (move_facet_fields_spec name fms [] vf) as (H1 & _ & _ & _).
  cbn zeta in H1. fold (move_facet_fields name fms vf) in H1.
  set (vf1 := (move_facet_fields name fms vf).2) in *. clearbody vf1.
  assert (move_facet_fields name fms vf1
          = (foldl (λ acc f, field_set (facet_propertyName f) VUndefined acc) [] fms,
             vf1)) as ->
    by exact (move_facet_fields_absent name fms [] vf1 H1).
  simpl. split; [done|]. intros f Hf. by apply set_undefined_elem.
Qed.
End accessor_pair.

Lemma predicate_set_stores_witness :
  Private.predicate_set Example.metadata 0 example_pred (AssignArray 2)
    example_before_set = Done tt example_after_set
  ∧ accessors example_after_set !! (0, "friends")
    = Some (PredicateAccessor example_pred
              (Some (PredicateImpl.new "friends" 0 2))).
Proof.
  assert (Hrun : Private.predicate_set Example.metadata 0 example_pred
                   (AssignArray 2) example_before_set
                 = Done tt example_after_set)
    by (vm_compute; reflexivity).
  split; [exact Hrun|].
  destruct (predicate_set_stores Example.metadata 0 example_pred (AssignArray 2)
              example_before_set tt example_after_set Hrun) as (c & Hc & Heq).
  rewrite Heq in Hc. exact Hc.
Defined.

Lemma setup_facet_moves_fields_witness :
  Private.setup_facet 0 example_pred example_facets (IInst 1) example_before_set
  = Done tt example_after_setup
  ∧ field_get "friends|since" (i_fields (instances example_after_setup !!! 1)) = None
  ∧ FacetStorage.get "friends" 0 1 (facetStorage (heap example_after_setup)) = Some 3
  ∧ field_get "since" (i_fields (instances example_after_setup !!! 3))
    = Some (VPrim (PNum 3)).
Proof.
  assert (Hrun : Private.setup_facet 0 example_pred example_facets (IInst 1)
                   example_before_set = Done tt example_after_setup)
    by (vm_compute; reflexivity).
  assert (Hlt : 1 < next example_before_set) by (vm_compute; lia).
  assert (Hin : FacetArgs "since" ∈ example_facets) by apply list_elem_of_here.
  assert (Hnd : NoDup (facet_propertyName <$> example_facets))
    by (apply NoDup_singleton).
  split; [exact Hrun|].
  destruct (setup_facet_moves_fields 0 example_pred example_facets 1
              example_before_set tt example_after_setup Hlt Hrun)
    as (H1 & _ & _ & H4 & _ & H6 & _).
  split; [exact (H1 _ Hin)|]. split; [exact H4|exact (H6 Hnd _ Hin)].
Defined.

(** ** More on the predicate decorator *)

Section decorator_more.
Import Predicate.
Context {PredicateType : Type}.
Variable convert : string → option PredicateType.

(** X13 (an explicit type wins).  When the options give a type, the
    reflected design type is not consulted: the declaration ends the same
    way, with the same metadata or the same error, whatever reflection
    holds for the property. *)
Theorem explicit_type_ignores_reflection
    (options : IOptions PredicateType) cls reflected1 reflected2 propertyName :
  is_Some (type _ options) →
  Predicate.Predicate _ convert options (Target cls reflected1) propertyName
  = Predicate.Predicate _ convert options (Target cls reflected2) propertyName.
Proof.
  intros [t Ht]. unfold Predicate.Predicate, sanitizePredicateType. rewrite Ht.
  destruct t as [t|[|t [|t' ts]]]; done.
Qed.


(** X15 (array and node flags).  For an accepted declaration, isArray
    holds exactly when the type is given as a one-element array, and
    isNodePredicate exactly when that one element is a class.  A class
    given without the array brackets is registered with type 'node' but is
    neither an array nor a node predicate. *)
Theorem sanitized_flags (options : IOptions PredicateType) tg propertyName s :
  sanitizePredicateType _ convert options tg propertyName = Ok s →
  (isArray _ s = true ↔ ∃ t, type _ options = Some (Many [t]))
  ∧ (isNodePredicate _ s = true
     ↔ ∃ cls, type _ options = Some (Many [OfConstructor cls]))
  ∧ ∀ cls,
      type _ options = Some (Single (OfConstructor cls)) →
      isArray _ s = false ∧ isNodePredicate _ s = false
      ∧ ∃ m, Predicate.Predicate _ convert options tg propertyName = Ok m
             ∧ m_type _ m = None ∧ m_isArray _ m = false.
Proof.
  unfold Predicate.Predicate, sanitizePredicateType, getPropertyPredicateType.
  destruct (type _ options) as [[t|[|t [|t' ts]]]|] eqn:Ety; simpl; try done.
  - intros [= <-]. simpl. split_and!.
    + split; [done|]. by intros [? [=]].
    + split; [done|]. by intros [? [=]].
    + intros cls [= ->]. simpl. split_and!; try done. by eexists.
  - intros [= <-]. simpl. split_and!.
    + split; [by eauto|done].
    + destruct t as [p|cls]; simpl.
      * split; [done|]. by intros [? [=]].
      * split; [by eauto|done].
    + by intros cls [=].
  - destruct (design_type tg propertyName) as [reflected|]; [|done]. simpl.
    intros [= <-]. simpl. split_and!.
    + split; [done|]. by intros [? [=]].
    + split; [done|]. by intros [? [=]].
    + by intros cls [=].
Qed.
End decorator_more.

Lemma explicit_type_ignores_reflection_witness :
  Predicate.Predicate ExamplePredicateType example_convert
    (Predicate.Options (Some (Predicate.Many [Predicate.OfConstructor "Work"])) None)
    (Predicate.Target "Person" (λ _, None)) "works"
  = Predicate.Predicate ExamplePredicateType example_convert
      (Predicate.Options (Some (Predicate.Many [Predicate.OfConstructor "Work"])) None)
      (Predicate.Target "Person" (λ _, Some "Array")) "works".
Proof.
  apply (explicit_type_ignores_reflection example_convert). by eexists.
Defined.


Lemma sanitized_flags_witness :
  Predicate.sanitizePredicateType ExamplePredicateType example_convert
    (Predicate.Options (Some (Predicate.Single (Predicate.OfConstructor "Work"))) None)
    example_target "works"
  = Predicate.Ok (Predicate.Sanitized _ false false (Some (Predicate.OfConstructor "Work")))
  ∧ Predicate.isNodePredicate _
      (Predicate.Sanitized ExamplePredicateType false false
         (Some (Predicate.OfConstructor "Work"))) = false.
Proof.
  split; [reflexivity|].
  destruct (sanitized_flags example_convert
              (Predicate.Options (Some (Predicate.Single (Predicate.OfConstructor "Work"))) None)
              example_target "works" _ eq_refl) as (_ & _ & H).
  destruct (H "Work" eq_refl) as (_ & H2 & _). exact H2.
Defined.

(** ** The shape of what the transform builds *)

Section storage_shape.
Import Private.
Variable metadata : MetadataStorage.
Variable recs : gmap rid rawObj.
Variable arrays : gmap aid (list elem).

Lemma quiet_refl st : quiet st st.
Proof. by split_and!. Qed.

Lemma quiet_trans st1 st2 st3 : quiet st1 st2 → quiet st2 st3 → quiet st1 st3.
Proof.
  intros (H1 & H2 & H3) (G1 & G2 & G3). split_and!; [congruence|lia|congruence].
Qed.

Lemma forEach_quiet {A} (body : A → mstate → outcome unit) l :
  (∀ x st u st', x ∈ l → body x st = Done u st' → quiet st st') →
  ∀ st u st', forEach body l st = Done u st' → quiet st st'.
Proof.
  intros Hbody st u st'.
  apply (forEach_preserves (λ s, quiet st s)); [|apply quiet_refl].
  intros x s u0 s' Hx Hs Hb. eapply quiet_trans; [exact Hs|]. by eapply Hbody.
Qed.

Lemma well_stored_quiet st st' : quiet st st' → well_stored arrays st → well_stored arrays st'.
Proof.
  intros (Hs & Hn & Ha) (W1 & W2 & W3). unfold well_stored. rewrite Hs, Ha.
  split_and!; [|done..].
  intros a ia Hl. destruct (W1 a ia Hl) as [Hlt Hxs]. split; [lia|done].
Qed.

Lemma trackProperty_quiet x p n st u st' :
  trackProperty x p n st = Done u st' → quiet st st'.
Proof. destruct x; [|done]. intros [= _ <-]. by split_and!. Qed.

Lemma trackProperties_quiet x st u st' :
  trackProperties metadata x st = Done u st' → quiet st st'.
Proof.
  unfold trackProperties. destruct (properties metadata !! _) as [props|].
  - apply forEach_quiet. intros prop s u0 s' _. apply trackProperty_quiet.
  - intros [= _ <-]. apply quiet_refl.
Qed.

Lemma setup_facet_quiet owner pred fms v st u st' :
  setup_facet owner pred fms v st = Done u st' → quiet st st'.
Proof.
  unfold setup_facet. destruct v as [j|p]; [|done].
  destruct (move_facet_fields _ _ _) as [plain v_fields].
  unfold plainToClass_object.
  match goal with
  | |- bind (forEach ?b fms ?s3) _ = _ → _ =>
      set (st3 := s3); destruct (forEach b fms st3) as [u4 st4| |] eqn:E4; [|done..]
  end.
  cbn [bind]. intros [= _ <-].
  assert (Hq : quiet st3 st4).
  { revert E4. apply forEach_quiet. intros f s u0 s' _. apply trackProperty_quiet. }
  destruct Hq as (H1 & H2 & H3). subst st3. simpl in *.
  split_and!; simpl; [done|lia|done].
Qed.

Lemma predicate_set_array_quiet owner pred a st u st' :
  predicate_set metadata owner pred (AssignArray a) st = Done u st' → quiet st st'.
Proof.
  unfold predicate_set.
  match goal with
  | |- bind (forEach ?b ?l st) _ = _ → _ =>
      destruct (forEach b l st) as [u2 st2| |] eqn:E2; [|done..]
  end.
  cbn [bind]. intros [= _ <-].
  assert (Hq : quiet st st2).
  { revert E2. apply forEach_quiet. intros v s u0 s' _. apply setup_facet_quiet. }
  destruct Hq as (H1 & H2 & H3). by split_and!.
Qed.

Lemma assign_array_quiet x p a st u st' :
  assign_property metadata x p (AssignArray a) st = Done u st' → quiet st st'.
Proof.
  unfold assign_property. destruct x as [i|q]; [|done].
  destruct (accessors st !! (i, p)) as [[n|pred sv]|].
  - intros [= _ <-]. by split_and!.
  - apply predicate_set_array_quiet.
  - intros [= _ <-]. apply quiet_refl.
Qed.

(** What plainToClass returns for the elements of a raw array. *)
Lemma plainToClass_elems_shape cls plain :
  ∀ st xs st1,
    plainToClass_elems recs cls plain st = (xs, st1) →
    Forall2 shape xs plain
    ∧ NoDup (inst_ids xs)
    ∧ (∀ i, i ∈ inst_ids xs → next st ≤ i ∧ i < next st1)
    ∧ (∀ i, i ∈ inst_ids xs → i_class (instances st1 !!! i) = cls).
Proof.
  induction plain as [|[r|p] plain IH]; intros st xs st1; simpl.
  - intros [= <- <-]. split_and!; [constructor|constructor|..];
      by intros i ?%elem_of_nil.
  - destruct (plainToClass_elems recs cls plain _) as [ys st2] eqn:E.
    intros [= <- <-].
    destruct (IH _ _ _ E) as (H1 & H2 & H3 & H4).
    pose proof (plainToClass_elems_instances _ _ _ _ _ _ E) as [Hn Hi].
    simpl in *. split_and!.
    + by constructor.
    + apply NoDup_cons. split; [|done]. intros Hin%H3. lia.
    + intros i [->|Hin]%elem_of_cons; [lia|]. apply H3 in Hin. lia.
    + intros i [->|Hin]%elem_of_cons; [|by apply H4].
      rewrite lookup_total_alt, Hi by lia. by rewrite lookup_insert_eq.
  - destruct (plainToClass_elems recs cls plain _) as [ys st2] eqn:E.
    intros [= <- <-].
    destruct (IH _ _ _ E) as (H1 & H2 & H3 & H4).
    split_and!; try done. by constructor.
Qed.

Section shape_with_rec.
Variable rec : string → aid → mstate → outcome aid.
Hypothesis Hrec :
  ∀ cls a st ia st',
    rec cls a st = Done ia st' → well_stored arrays st → well_stored arrays st'.

Lemma process_predicate_stored x raw pred st u st' :
  process_predicate metadata recs rec x raw pred st = Done u st' →
  well_stored arrays st → well_stored arrays st'.
Proof.
  unfold process_predicate. destruct x as [i|q]; [|done].
  cbn [trackPredicate bind].
  destruct (truthy (raw_field recs raw (pred_name pred)));
    [|intros [= _ <-]; apply well_stored_quiet; by split_and!].
  destruct (raw_field recs raw (pred_name pred)) as [| |p|a]; try done.
  match goal with
  | |- bind (rec ?c a ?s1) _ = _ → _ =>
      set (st1 := s1); destruct (rec c a st1) as [ia st2| |] eqn:E2; [|done..]
  end.
  cbn [bind]. intros Hassign Hw.
  apply assign_array_quiet in Hassign.
  eapply well_stored_quiet; [exact Hassign|].
  apply (well_stored_quiet st2); [by split_and!|].
  eapply Hrec; [exact E2|]. eapply well_stored_quiet; [|exact Hw].
  subst st1. by split_and!.
Qed.

Lemma process_instance_stored x st u st' :
  process_instance metadata recs rec x st = Done u st' →
  well_stored arrays st → well_stored arrays st'.
Proof.
  destruct x as [ins raw]. unfold process_instance.
  destruct (trackProperties metadata ins st) as [u1 s1| |] eqn:E1; [|done..].
  cbn [bind]. apply trackProperties_quiet in E1.
  destruct (predicates metadata !! constructor_name s1 ins) as [preds|].
  - intros Hrun Hw. revert Hrun.
    apply (forEach_preserves (well_stored arrays)); [|by eapply well_stored_quiet].
    intros pred s u0 s' _ Hs Hb. by eapply process_predicate_stored.
  - intros [= _ <-] Hw. by eapply well_stored_quiet.
Qed.

Lemma executor_body_stored cls a st ia st' :
  executor_body metadata recs arrays rec cls a st = Done ia st' →
  well_stored arrays st → well_stored arrays st'.
Proof.
  unfold executor_body.
  destruct (storage st !! a) as [ia0|] eqn:Ehit; [by intros [= <- <-]|].
  unfold plainToClass_array.
  destruct (plainToClass_elems recs cls (arrays !!! a) st) as [xs st1] eqn:E1.
  pose proof (plainToClass_elems_spec recs cls _ _ _ _ E1)
    as (P1 & P2 & P3 & P4 & P5 & P6 & P7 & P8).
  apply plainToClass_elems_shape in E1 as (S1 & S2 & S3 & _).
  unfold new_array.
  match goal with
  | |- bind (forEach _ _ ?s) _ = _ → _ => set (st2 := s)
  end.
  set (pairs := zip _ _).
  destruct (forEach (process_instance metadata recs rec) pairs st2)
    as [u3 st3| |] eqn:E3; [|done..].
  cbn [bind]. intros [= <- <-] (W1 & W2 & W3).
  revert E3. apply (forEach_preserves (well_stored arrays)).
  { intros x s u0 s' _ Hs Hb. by eapply process_instance_stored. }
  (* the state with the new entry *)
  assert (Hold : ∀ a' ia', storage st !! a' = Some ia' →
            ia' < next st
            ∧ iarrays (heap st2) !! ia' = iarrays (heap st) !! ia').
  { intros a' ia' Hl. destruct (W1 a' ia' Hl) as [Hlt _]. split; [done|].
    subst st2. simpl. rewrite P5. apply lookup_insert_ne. lia. }
  assert (Hst : ∀ a' ia', storage st2 !! a' = Some ia' →
            (a' = a ∧ ia' = next st1) ∨ (a' ≠ a ∧ storage st !! a' = Some ia')).
  { intros a' ia'. subst st2. simpl. rewrite P3.
    destruct (decide (a = a')) as [<-|Hne].
    - rewrite lookup_insert_eq. intros [= <-]. by left.
    - rewrite lookup_insert_ne by done. by right. }
  assert (Hnew : iarrays (heap st2) !! next st1 = Some xs).
  { subst st2. simpl. apply lookup_insert_eq. }
  assert (Hnext : next st2 = S (next st1)) by (by subst st2).
  split_and!.
  - intros a' ia' [[-> ->]|[Hne Hl]]%Hst.
    + split; [lia|]. exists xs. split_and!; try done.
      intros i Hi%S3. lia.
    + destruct (Hold a' ia' Hl) as [Hlt Heq]. destruct (W1 a' ia' Hl) as [_ Hxs].
      split; [lia|]. by rewrite Heq.
  - intros a1 a2 ia' [[-> ->]|[Hne1 Hl1]]%Hst [[-> Heq]|[Hne2 Hl2]]%Hst; try done.
    + destruct (Hold a2 _ Hl2). lia.
    + destruct (Hold a1 _ Hl1). lia.
    + by eapply W2.
  - intros a1 a2 ia1 ia2 xs1 xs2 i
      [[-> ->]|[Hne1 Hl1]]%Hst [[-> ->]|[Hne2 Hl2]]%Hst Hx1 Hx2 Hi1 Hi2; try done.
    + rewrite Hnew in Hx1. simplify_eq. apply S3 in Hi1.
      destruct (Hold a2 _ Hl2) as [Hlt Heq]. rewrite Heq in Hx2.
      destruct (W1 a2 _ Hl2) as [_ (xs' & Hxs' & _ & _ & Hids)].
      simplify_eq. apply Hids in Hi2. lia.
    + rewrite Hnew in Hx2. simplify_eq. apply S3 in Hi2.
      destruct (Hold a1 _ Hl1) as [Hlt Heq]. rewrite Heq in Hx1.
      destruct (W1 a1 _ Hl1) as [_ (xs' & Hxs' & _ & _ & Hids)].
      simplify_eq. apply Hids in Hi1. lia.
    + destruct (Hold a1 _ Hl1) as [_ Heq1]. destruct (Hold a2 _ Hl2) as [_ Heq2].
      rewrite Heq1 in Hx1. rewrite Heq2 in Hx2. by eapply W3.
Qed.
End shape_with_rec.

Lemma plainToClassExecutor_stored fuel :
  ∀ cls a st ia st',
    plainToClassExecutor metadata recs arrays fuel cls a st = Done ia st' →
    well_stored arrays st → well_stored arrays st'.
Proof.
  induction fuel as [|fuel IH]; [done|]. simpl. intros cls a st ia st'.
  by apply executor_body_stored.
Qed.

Lemma well_stored_empty st : storage st = ∅ → well_stored arrays st.
Proof.
  intros He. unfold well_stored. rewrite He.
  split_and!; intros; by simplify_map_eq.
Qed.
End storage_shape.

Lemma inst_ids_lookup xs k i : xs !! k = Some (IInst i) → i ∈ inst_ids xs.
Proof.
  intros Hl. apply list_elem_of_omap. exists (IInst i). split; [|done].
  by eapply list_elem_of_lookup_2.
Qed.

Lemma inst_ids_NoDup_lookup xs :
  NoDup (inst_ids xs) →
  ∀ k1 k2 i, xs !! k1 = Some (IInst i) → xs !! k2 = Some (IInst i) → k1 = k2.
Proof.
  induction xs as [|x xs IH]; intros Hnd k1 k2 i H1 H2; [done|].
  destruct k1 as [|k1], k2 as [|k2]; simpl in *; simplify_eq; try done.
  - apply inst_ids_lookup in H2. unfold inst_ids in Hnd. simpl in Hnd.
    apply NoDup_cons in Hnd as [Hnot _]. by destruct Hnot.
  - apply inst_ids_lookup in H1. unfold inst_ids in Hnd. simpl in Hnd.
    apply NoDup_cons in Hnd as [Hnot _]. by destruct Hnot.
  - f_equal. apply (IH) with i; try done.
    unfold inst_ids in Hnd. simpl in Hnd. destruct x; [|done].
    by apply NoDup_cons in Hnd as [_ ?].
Qed.

Section transform_shape.
Import Private ObjectMapper.
Variable metadata : MetadataStorage.
Variable recs : gmap rid rawObj.
Variable arrays : gmap aid (list elem).

Lemma transform_well_stored fuel cls a st ia st' :
  transform metadata recs arrays fuel cls a st = Done ia st' →
  well_stored arrays st' ∧ stored st' ∧ storage st' !! a = Some ia.
Proof.
  unfold transform. intros Hrun. split_and!.
  - eapply plainToClassExecutor_stored; [exact Hrun|]. by apply well_stored_empty.
  - apply plainToClassExecutor_spec in Hrun as (_ & _ & _ & Hstored).
    apply Hstored. split_and!; simpl.
    + intros i p a0 ia' Hin. by apply elem_of_nil in Hin.
    + constructor.
    + intros a0 ia'. rewrite lookup_empty. split; [|done].
      intros Hin. by apply elem_of_nil in Hin.
  - by apply plainToClassExecutor_spec in Hrun as (_ & Hroot & _).
Qed.

(** X16 (the instance arrays answer the raw arrays).  After a transform
    that returned, the instance array returned for the root and the one
    stored for every converted raw array have one element per element of
    the raw array, in order: an instance where the raw array has a record,
    the primitive itself where it has a primitive. *)
Theorem transform_answers_raw_arrays fuel cls root st0 ia st' :
  transform metadata recs arrays fuel cls root st0 = Done ia st' →
  (∃ xs, iarrays (heap st') !! ia = Some xs ∧ Forall2 shape xs (arrays !!! root))
  ∧ ∀ a ia',
      storage st' !! a = Some ia' →
      ∃ xs, iarrays (heap st') !! ia' = Some xs
            ∧ Forall2 shape xs (arrays !!! a)
            ∧ length xs = length (arrays !!! a).
Proof.
  intros (Hw & _ & Hroot)%transform_well_stored.
  destruct Hw as (W1 & _ & _). split.
  - destruct (W1 _ _ Hroot) as (_ & xs & Hxs & Hsh & _). by exists xs.
  - intros a ia' Hl. destruct (W1 _ _ Hl) as (_ & xs & Hxs & Hsh & _).
    exists xs. split_and!; [done..|]. by eapply Forall2_length.
Qed.

(** X17 (the storage is one to one).  After a transform that returned,
    two assignments that carried the same instance array were made for
    the same raw array: an instance array is never reused for another raw
    array. *)
Theorem transform_arrays_not_reused fuel cls root st0 ia st' :
  transform metadata recs arrays fuel cls root st0 = Done ia st' →
  ∀ i1 p1 i2 p2 a1 a2 ia',
    (i1, p1, a1, ia') ∈ assignments st' → (i2, p2, a2, ia') ∈ assignments st' →
    a1 = a2.
Proof.
  intros (Hw & Hs & _)%transform_well_stored i1 p1 i2 p2 a1 a2 ia' H1 H2.
  destruct Hw as (_ & W2 & _). destruct Hs as (S1 & _).
  apply S1 in H1. apply S1 in H2. by eapply W2.
Qed.

(** X18 (one instance per position).  After a transform that returned,
    every position of every converted raw array has an instance of its
    own: the same instance at two positions means the same raw array and
    the same index.  So a raw record that is an element of two raw arrays
    is converted twice, into two instances. *)
Theorem transform_instance_per_position fuel cls root st0 ia st' :
  transform metadata recs arrays fuel cls root st0 = Done ia st' →
  ∀ a1 a2 ia1 ia2 xs1 xs2 k1 k2 i,
    storage st' !! a1 = Some ia1 → storage st' !! a2 = Some ia2 →
    iarrays (heap st') !! ia1 = Some xs1 → iarrays (heap st') !! ia2 = Some xs2 →
    xs1 !! k1 = Some (IInst i) → xs2 !! k2 = Some (IInst i) →
    a1 = a2 ∧ k1 = k2.
Proof.
  intros (Hw & _ & _)%transform_well_stored
    a1 a2 ia1 ia2 xs1 xs2 k1 k2 i Hs1 Hs2 Hx1 Hx2 Hk1 Hk2.
  destruct Hw as (W1 & _ & W3).
  assert (a1 = a2) as <-.
  { eapply (W3 a1 a2); eauto using inst_ids_lookup. }
  split; [done|]. simplify_eq.
  destruct (W1 _ _ Hs1) as (_ & xs & Hxs & _ & Hnd & _). simplify_eq.
  by eapply inst_ids_NoDup_lookup.
Qed.

Lemma purge_all_heap xs st :
  heap (foldl (λ s i, purgeInstance i s) st xs) = heap st.
Proof.
  revert st. induction xs as [|[i|p] xs IH]; intros st; simpl; [done|..];
    by rewrite IH.
Qed.
End transform_shape.

(** X19 (what build returns).  When [build] returns, the returned array
    has one element per element of the JSON data, in order: an instance
    for a record and the primitive itself for a primitive; and no two
    positions of it hold the same instance. *)
Theorem build_answers_json_data metadata fuel b ia st :
  ObjectMapper.build metadata fuel b = Done ia st →
  ∃ xs, iarrays (heap st) !! ia = Some xs
        ∧ Forall2 shape xs
            (ObjectMapper.raw_arrays b !!! ObjectMapper._jsonData b)
        ∧ ∀ k1 k2 i, xs !! k1 = Some (IInst i) → xs !! k2 = Some (IInst i) → k1 = k2.
Proof.
  unfold ObjectMapper.build.
  destruct (ObjectMapper.build_expand fuel b) as [recs|]; [|done].
  destruct (Private.transform _ _ _ _ _ _ _) as [ia0 st0| |] eqn:E; [|done..].
  cbn [bind]. intros [= <- <-]. rewrite purge_all_heap.
  pose proof (transform_well_stored _ _ _ _ _ _ _ _ _ E) as ((W1 & _) & _ & Hroot).
  destruct (W1 _ _ Hroot) as (_ & xs & Hxs & Hsh & Hnd & _).
  exists xs. split_and!; [done..|]. by apply inst_ids_NoDup_lookup.
Qed.

Lemma transform_answers_raw_arrays_witness :
  Private.transform Example.metadata (records Example.expanded) Example.raw_arrays 4
    "Person" 0 Private.initial = Done 1 Example.transformed
  ∧ ∃ xs, iarrays (heap Example.transformed) !! 1 = Some xs
          ∧ Forall2 shape xs (Example.raw_arrays !!! 0).
Proof.
  assert (Hrun : Private.transform Example.metadata (records Example.expanded)
                   Example.raw_arrays 4 "Person" 0 Private.initial
                 = Done 1 Example.transformed)
    by (vm_compute; reflexivity).
  split; [exact Hrun|].
  exact (proj1 (transform_answers_raw_arrays Example.metadata
                  (records Example.expanded) Example.raw_arrays 4 "Person" 0
                  Private.initial 1 Example.transformed Hrun)).
Defined.

Lemma transform_arrays_not_reused_witness :
  Private.transform Example.metadata (records Example.expanded) Example.raw_arrays 4
    "Person" 0 Private.initial = Done 1 Example.transformed
  ∧ ∀ i1 p1 i2 p2 a1 a2 ia,
      (i1, p1, a1, ia) ∈ assignments Example.transformed →
      (i2, p2, a2, ia) ∈ assignments Example.transformed →
      a1 = a2.
Proof.
  assert (Hrun : Private.transform Example.metadata (records Example.expanded)
                   Example.raw_arrays 4 "Person" 0 Private.initial
                 = Done 1 Example.transformed)
    by (vm_compute; reflexivity).
  split; [exact Hrun|].
  exact (transform_arrays_not_reused Example.metadata
           (records Example.expanded) Example.raw_arrays 4 "Person" 0
           Private.initial 1 Example.transformed Hrun).
Defined.

Lemma transform_instance_per_position_witness :
  Private.transform Example.metadata (records Example.expanded) Example.raw_arrays 4
    "Person" 0 Private.initial = Done 1 Example.transformed
  ∧ ∀ a1 a2 ia1 ia2 xs1 xs2 k1 k2 i,
      storage Example.transformed !! a1 = Some ia1 →
      storage Example.transformed !! a2 = Some ia2 →
      iarrays (heap Example.transformed) !! ia1 = Some xs1 →
      iarrays (heap Example.transformed) !! ia2 = Some xs2 →
      xs1 !! k1 = Some (IInst i) → xs2 !! k2 = Some (IInst i) →
      a1 = a2 ∧ k1 = k2.
Proof.
  assert (Hrun : Private.transform Example.metadata (records Example.expanded)
                   Example.raw_arrays 4 "Person" 0 Private.initial
                 = Done 1 Example.transformed)
    by (vm_compute; reflexivity).
  split; [exact Hrun|].
  exact (transform_instance_per_position Example.metadata
           (records Example.expanded) Example.raw_arrays 4 "Person" 0
           Private.initial 1 Example.transformed Hrun).
Defined.

Lemma build_answers_json_data_witness :
  ObjectMapper.build Example.metadata 4 Example.builder = Done 1 Example.built
  ∧ ∃ xs, iarrays (heap Example.built) !! 1 = Some xs
          ∧ Forall2 shape xs [ERec 1]
          ∧ ∀ k1 k2 i, xs !! k1 = Some (IInst i) → xs !! k2 = Some (IInst i) → k1 = k2.
Proof.
  assert (Hrun : ObjectMapper.build Example.metadata 4 Example.builder
                 = Done 1 Example.built)
    by (vm_compute; reflexivity).
  split; [exact Hrun|].
  exact (build_answers_json_data Example.metadata 4 Example.builder 1
           Example.built Hrun).
Defined.

(** ** The class of what the transform builds *)

Section classes.
Import Private ObjectMapper.
Variable metadata : MetadataStorage.
Variable recs : gmap rid rawObj.
Variable arrays : gmap aid (list elem).

Lemma grows_refl st : grows st st.
Proof. by split_and!. Qed.

Lemma grows_trans st1 st2 st3 : grows st1 st2 → grows st2 st3 → grows st1 st3.
Proof.
  intros (H1 & H2 & H3) (G1 & G2 & G3). split_and!; [lia|..].
  - intros i Hi. rewrite G2 by lia. by apply H2.
  - intros a Ha. rewrite G3 by lia. by apply H3.
Qed.

Lemma forEach_grows {A} (body : A → mstate → outcome unit) l :
  (∀ x st u st', x ∈ l → body x st = Done u st' → grows st st') →
  ∀ st u st', forEach body l st = Done u st' → grows st st'.
Proof.
  intros Hbody st u st'.
  apply (forEach_preserves (λ s, grows st s)); [|apply grows_refl].
  intros x s u0 s' Hx Hs Hb. eapply grows_trans; [exact Hs|]. by eapply Hbody.
Qed.

Lemma trackProperty_grows x p n st u st' :
  trackProperty x p n st = Done u st' → grows st st'.
Proof. destruct x; [|done]. intros [= _ <-]. by split_and!. Qed.

Lemma trackProperties_grows x st u st' :
  trackProperties metadata x st = Done u st' → grows st st'.
Proof.
  unfold trackProperties. destruct (properties metadata !! _) as [props|].
  - apply forEach_grows. intros prop s u0 s' _. apply trackProperty_grows.
  - intros [= _ <-]. apply grows_refl.
Qed.

Lemma setup_facet_grows owner pred fms v st u st' :
  setup_facet owner pred fms v st = Done u st' → grows st st'.
Proof.
  unfold setup_facet. destruct v as [j|p]; [|done].
  destruct (move_facet_fields _ _ _) as [plain v_fields].
  unfold plainToClass_object.
  match goal with
  | |- bind (forEach ?b fms ?s3) _ = _ → _ =>
      set (st3 := s3); destruct (forEach b fms st3) as [u4 st4| |] eqn:E4; [|done..]
  end.
  cbn [bind]. intros [= _ <-].
  assert (Hg : grows st3 st4).
  { revert E4. apply forEach_grows. intros f s u0 s' _. apply trackProperty_grows. }
  apply (grows_trans _ st3).
  - subst st3. split_and!; simpl; [lia| |done].
    intros i Hi. rewrite lookup_total_insert_ne by lia.
    destruct (decide (j = i)) as [->|Hne].
    + by rewrite lookup_total_insert_eq.
    + by rewrite lookup_total_insert_ne.
  - eapply grows_trans; [exact Hg|]. by split_and!.
Qed.

Lemma predicate_set_grows owner pred value st u st' :
  predicate_set metadata owner pred value st = Done u st' → grows st st'.
Proof.
  unfold predicate_set.
  assert (Hloop : ∀ c s, grows st s →
            (do _, st2 <- forEach
                             (setup_facet owner pred
                                (default [] (facets metadata !! default "" (pred_facet pred))))
                             (PredicateImpl.get c (heap s)) s;
             Done tt (set_accessors
                        (<[(owner, pred_propertyName pred)
                           := PredicateAccessor pred (Some c)]> (accessors st2)) st2))
            = Done u st' → grows st st').
  { intros c s Hs.
    match goal with
    | |- bind (forEach ?b ?l s) _ = _ → _ =>
        destruct (forEach b l s) as [u2 st2| |] eqn:E2; [|done..]
    end.
    cbn [bind]. intros [= _ <-].
    eapply grows_trans; [exact Hs|].
    apply (grows_trans _ st2); [|by split_and!].
    revert E2. apply forEach_grows. intros v s0 u0 s' _. apply setup_facet_grows. }
  destruct value as [a|c0|].
  - apply Hloop, grows_refl.
  - apply Hloop, grows_refl.
  - unfold new_array. apply Hloop. split_and!; simpl; [lia|done|].
    intros a Ha. apply lookup_insert_ne. lia.
Qed.

Lemma assign_property_grows x p value st u st' :
  assign_property metadata x p value st = Done u st' → grows st st'.
Proof.
  unfold assign_property. destruct x as [i|q]; [|done].
  destruct (accessors st !! (i, p)) as [[n|pred sv]|].
  - intros [= _ <-]. by split_and!.
  - apply predicate_set_grows.
  - intros [= _ <-]. apply grows_refl.
Qed.

Section classes_with_rec.
Variable rec : string → aid → mstate → outcome aid.
Hypothesis Hrec :
  ∀ cls a st ia st', rec cls a st = Done ia st' → grows st st'.

Lemma process_predicate_grows x raw pred st u st' :
  process_predicate metadata recs rec x raw pred st = Done u st' → grows st st'.
Proof.
  unfold process_predicate. destruct x as [i|q]; [|done].
  cbn [trackPredicate bind].
  destruct (truthy (raw_field recs raw (pred_name pred)));
    [|intros [= _ <-]; by split_and!].
  destruct (raw_field recs raw (pred_name pred)) as [| |p|a]; try done.
  match goal with
  | |- bind (rec ?c a ?s1) _ = _ → _ =>
      set (st1 := s1); destruct (rec c a st1) as [ia st2| |] eqn:E2; [|done..]
  end.
  cbn [bind]. intros Hassign%assign_property_grows.
  apply Hrec in E2.
  apply (grows_trans _ st1); [by split_and!|].
  eapply grows_trans; [exact E2|].
  eapply grows_trans; [|exact Hassign]. by split_and!.
Qed.

Lemma process_instance_grows x st u st' :
  process_instance metadata recs rec x st = Done u st' → grows st st'.
Proof.
  destruct x as [ins raw]. unfold process_instance.
  destruct (trackProperties metadata ins st) as [u1 s1| |] eqn:E1; [|done..].
  cbn [bind]. apply trackProperties_grows in E1.
  destruct (predicates metadata !! constructor_name s1 ins) as [preds|].
  - intros Hrun. eapply grows_trans; [exact E1|]. revert Hrun.
    apply forEach_grows. intros pred s u0 s' _. apply process_predicate_grows.
  - by intros [= _ <-].
Qed.

Lemma executor_body_grows cls a st ia st' :
  executor_body metadata recs arrays rec cls a st = Done ia st' →
  grows st st'
  ∧ (storage st !! a = None →
     ∃ xs, iarrays (heap st') !! ia = Some xs
           ∧ ∀ i, i ∈ inst_ids xs → i_class (instances st' !!! i) = cls).
Proof.
  unfold executor_body.
  destruct (storage st !! a) as [ia0|] eqn:Ehit.
  { intros [= <- <-]. split; [apply grows_refl|done]. }
  unfold plainToClass_array.
  destruct (plainToClass_elems recs cls (arrays !!! a) st) as [xs st1] eqn:E1.
  pose proof (plainToClass_elems_spec recs cls _ _ _ _ E1)
    as (P1 & P2 & P3 & P4 & P5 & P6 & P7 & P8).
  pose proof (plainToClass_elems_instances _ _ _ _ _ _ E1) as [_ Hi].
  apply plainToClass_elems_shape in E1 as (_ & _ & S3 & S4).
  unfold new_array.
  match goal with
  | |- bind (forEach _ _ ?s) _ = _ → _ => set (st2 := s)
  end.
  set (pairs := zip _ _).
  destruct (forEach (process_instance metadata recs rec) pairs st2)
    as [u3 st3| |] eqn:E3; [|done..].
  cbn [bind]. intros [= <- <-].
  assert (Hg : grows st2 st3).
  { revert E3. apply forEach_grows. intros x s u0 s' _. apply process_instance_grows. }
  assert (Hnext : next st2 = S (next st1)) by (by subst st2).
  assert (Hinst : instances st2 = instances st1) by (by subst st2).
  assert (Hnew : iarrays (heap st2) !! next st1 = Some xs).
  { subst st2. simpl. apply lookup_insert_eq. }
  destruct Hg as (G1 & G2 & G3). split.
  - split_and!; [lia|..].
    + intros i Hlt. rewrite G2 by lia. rewrite Hinst.
      by rewrite !lookup_total_alt, Hi.
    + intros a' Hlt. rewrite G3 by lia. subst st2. simpl. rewrite P5.
      apply lookup_insert_ne. lia.
  - intros _. exists xs. split.
    + rewrite G3 by lia. exact Hnew.
    + intros i Hin. destruct (S3 i Hin) as [_ Hlt].
      rewrite G2 by lia. rewrite Hinst. by apply S4.
Qed.
End classes_with_rec.

Lemma plainToClassExecutor_grows fuel :
  ∀ cls a st ia st',
    plainToClassExecutor metadata recs arrays fuel cls a st = Done ia st' →
    grows st st'.
Proof.
  induction fuel as [|fuel IH]; [done|]. simpl. intros cls a st ia st' Hrun.
  by apply executor_body_grows in Hrun as [? _].
Qed.

Lemma transform_classes fuel cls a st ia st' :
  transform metadata recs arrays fuel cls a st = Done ia st' →
  ∃ xs, iarrays (heap st') !! ia = Some xs
        ∧ ∀ i, i ∈ inst_ids xs → i_class (instances st' !!! i) = cls.
Proof.
  unfold transform. destruct fuel as [|fuel]; [done|]. simpl. intros Hrun.
  apply executor_body_grows in Hrun as [_ Hcls];
    [by apply Hcls|apply plainToClassExecutor_grows].
Qed.

Lemma purge_all_instances xs st :
  instances (foldl (λ s i, purgeInstance i s) st xs) = instances st.
Proof.
  revert st. induction xs as [|[i|p] xs IH]; intros st; simpl; [done|..];
    by rewrite IH.
Qed.
End classes.

(** X20 (build returns instances of the entry type).  When [build]
    returns, every instance in the returned array is an instance of the
    entry type given to the builder. *)
Theorem build_returns_entry_type metadata fuel b ia st :
  ObjectMapper.build metadata fuel b = Done ia st →
  ∃ xs, iarrays (heap st) !! ia = Some xs
        ∧ ∀ k i, xs !! k = Some (IInst i) →
                 i_class (instances st !!! i) = ObjectMapper._entryType b.
Proof.
  unfold ObjectMapper.build.
  destruct (ObjectMapper.build_expand fuel b) as [recs|]; [|done].
  destruct (Private.transform _ _ _ _ _ _ _) as [ia0 st0| |] eqn:E; [|done..].
  cbn [bind]. intros [= <- <-]. rewrite purge_all_heap, purge_all_instances.
  apply transform_classes in E as (xs & Hxs & Hcls).
  exists xs. split; [done|]. intros k i Hk. by eapply Hcls, inst_ids_lookup.
Qed.

Lemma build_returns_entry_type_witness :
  ObjectMapper.build Example.metadata 4 Example.builder = Done 1 Example.built
  ∧ ∃ xs, iarrays (heap Example.built) !! 1 = Some xs
          ∧ ∀ k i, xs !! k = Some (IInst i) →
                   i_class (instances Example.built !!! i) = "Person".
Proof.
  assert (Hrun : ObjectMapper.build Example.metadata 4 Example.builder
                 = Done 1 Example.built)
    by (vm_compute; reflexivity).
  split; [exact Hrun|].
  exact (build_returns_entry_type Example.metadata 4 Example.builder 1
           Example.built Hrun).
Defined.
